(** * The tableau simplex solver of [simplex.py], embedded in Rocq

    The Python class [Simplex] keeps one numpy matrix of floats, the
    tableau, and pivots it in place.  This development embeds the methods of
    the class as functions on lists of lists of rationals and proves (or
    refutes) the properties stated about them.

    Modelling decisions, valid for the whole file:
    - a float is an exact rational ([Q]); rounding, overflow and NaN are out
      of the model.  The only non-finite value the code writes itself,
      [np.inf], is a constructor of its own ([Inf]).  What holds of this
      model holds of the code in exact arithmetic; the one quotient of pivot
      selection is embedded once more on doubles, in [Float64], to show
      where the two part;
    - the tolerance [1e-10] is the number that this literal denotes as a
      double, [7737125245533627 / 2^86], a little above [1 / 10^10];
    - a numpy matrix is a list of rows; the shape invariant of a 2-D array
      (all rows have one length) is the predicate [shaped];
    - the tableau is updated in place and never aliased by the code, so a
      method that mutates it is a function returning the new tableau;
    - [verbose] is [False] (its default): the trace it prints does not
      change any result.  The two unconditional [print]s of [solve] are kept,
      as the list of lines written to standard output;
    - an exception that leaves [solve] is a result of its own ([Raise]). *)

From Stdlib Require Import String.
From Stdlib Require Import QArith Qabs List Bool Arith Lia Lqa.
From Stdlib Require PrimFloat FloatOps SpecFloat.
Import ListNotations.

Open Scope Q_scope.

(** ** Values *)

Definition tableau := list (list Q).

(** A ratio of the ratio test: a number or [np.inf]. *)
Inductive ratio : Type :=
| Fin (q : Q)
| Inf.

(** The exceptions that can leave the code. *)
Inductive exn : Type :=
| IndexError
| ValueError.

(** ** The numpy operations the source uses *)
Module Np.

(** [x < y] on floats. *)
Definition lt (x y : Q) : bool := negb (Qle_bool y x).

(** [x > 0], the test behind every mask [arr > 0]. *)
Definition gt0 (x : Q) : bool := lt 0 x.

(** [<] on ratios, [np.inf] above every number. *)
Definition ratio_lt (a b : ratio) : bool :=
  match a, b with
  | Fin x, Fin y => lt x y
  | Fin _, Inf => true
  | Inf, _ => false
  end.

(** [r == np.inf]. *)
Definition is_inf (r : ratio) : bool :=
  match r with
  | Inf => true
  | Fin _ => false
  end.

(** [np.any(mask)] and [np.all(mask)], the mask given by its test. *)
Definition any {A : Type} (test : A -> bool) (arr : list A) : bool :=
  existsb test arr.

Definition all {A : Type} (test : A -> bool) (arr : list A) : bool :=
  forallb test arr.

(** [np.where(arr > 0)[0]]: the indices of the positive entries, in
    increasing order. *)
Definition where_gt0 (arr : list Q) : list nat :=
  filter (fun j => gt0 (nth j arr 0)) (seq 0 (length arr)).

(** [arr[indices]]: indexing by an array of indices. *)
Definition take (arr : list Q) (indices : list nat) : list Q :=
  map (fun j => nth j arr 0) indices.

(** The scan behind [np.argmin] and [np.argmax]: the index of the first
    entry that no other entry beats.  [best] is the best value so far,
    found at [best_i]; [i] is the index of the head of the rest. *)
Fixpoint arg_scan {A : Type} (better : A -> A -> bool)
    (best : A) (best_i i : nat) (rest : list A) : nat :=
  match rest with
  | [] => best_i
  | x :: rest' =>
      if better x best
      then arg_scan better x i (S i) rest'
      else arg_scan better best best_i (S i) rest'
  end.

(** numpy raises [ValueError] on an empty array; every call of the source
    is on a non-empty one (see [find_pivot_argmin_nonempty]), and the
    model answers 0 there. *)
Definition arg_first {A : Type} (better : A -> A -> bool)
    (arr : list A) : nat :=
  match arr with
  | [] => 0%nat
  | x :: rest => arg_scan better x 0 1 rest
  end.

Definition argmin (arr : list Q) : nat := arg_first lt arr.

Definition argmin_ratio (arr : list ratio) : nat := arg_first ratio_lt arr.

Definition argmax (arr : list Q) : nat :=
  arg_first (fun x y => lt y x) arr.

(** [np.abs(arr)]. *)
Definition abs (arr : list Q) : list Q := map Qabs arr.

(** [np.count_nonzero(mask)], the mask given by its test. *)
Definition count_nonzero {A : Type} (test : A -> bool)
    (arr : list A) : nat :=
  length (filter test arr).

(** [np.where(col > 0, rhs / col, np.inf)], elementwise.  The quotient is
    the exact one; the quotient of two doubles is rounded to a double and
    overflows to [np.inf] ([Float64.ratios] has that quotient). *)
Definition where_ratio (col rhs : list Q) : list ratio :=
  map (fun cr => if gt0 (fst cr) then Fin (snd cr / fst cr) else Inf)
      (combine col rhs).

(** A map over the rows of a matrix that knows the index of each row,
    counted from [i]. *)
Fixpoint imap {A B : Type} (f : nat -> A -> B) (i : nat)
    (rows : list A) : list B :=
  match rows with
  | [] => []
  | row :: rows' => f i row :: imap f (S i) rows'
  end.

End Np.

(** ** Slices of the tableau *)

(** [tableau[i, j]]. *)
Definition entry (t : tableau) (i j : nat) : Q := nth j (nth i t []) 0.

(** [tableau[-1, :-1]]: the objective row without its right-hand side. *)
Definition objective_row (t : tableau) : list Q := removelast (last t []).

(** [tableau[:-1, -1]]: the right-hand sides of the constraint rows. *)
Definition rhs_column (t : tableau) : list Q :=
  map (fun row => last row 0) (removelast t).

(** [tableau[:-1, j]]: column [j] of the constraint rows. *)
Definition constraint_column (t : tableau) (j : nat) : list Q :=
  map (fun row => nth j row 0) (removelast t).

(** [tableau[:, j]]: column [j] of all the rows. *)
Definition full_column (t : tableau) (j : nat) : list Q :=
  map (fun row => nth j row 0) t.

(** [tableau.shape[0]] and [tableau.shape[1]]. *)
Definition shape0 (t : tableau) : nat := length t.
Definition shape1 (t : tableau) : nat := length (hd [] t).

(** A matrix of shape (m+1, n+1): [m] constraint rows and the objective
    row, [n] variable columns and the right-hand side. *)
Definition shaped (m n : nat) (t : tableau) : Prop :=
  length t = S m /\ Forall (fun row => length row = S n) t.

(** The tolerance [1e-10]: the double nearest to 1/10^10, which is
    7737125245533627 / 2^86.  The entries being doubles, the comparisons
    [np.abs(x) > 1e-10] and [np.abs(x - 1.0) < 1e-10] of the code are the
    comparisons with this number (the subtraction [x - 1.0] is exact on
    doubles whenever its result is below the tolerance). *)
Definition tol : Q := 7737125245533627 # 77371252455336267181195264.

(** ** The methods of the class [Simplex] *)

(** [_build_tableau]: [b] becomes the last column, [c] followed by 0 the
    last row. *)
Definition _build_tableau (c : list Q) (A : list (list Q)) (b : list Q)
    : tableau :=
  let tableau_top := map (fun rb => fst rb ++ [snd rb]) (combine A b) in
  let obj_row := c ++ [0] in
  tableau_top ++ [obj_row].

(** [_continue]: is some entry of the objective row positive? *)
Definition _continue (t : tableau) : bool :=
  let obj_row := objective_row t in
  Np.any Np.gt0 obj_row.

(** Lines 44 to 46 of [_find_pivot]: the entering column. *)
Definition entering_column (obj_row : list Q) : nat :=
  let positive_indices := Np.where_gt0 obj_row in
  let positive_values := Np.take obj_row positive_indices in
  nth (Np.argmin positive_values) positive_indices 0%nat.

(** Lines 48 to 52 of [_find_pivot]: the ratios of the ratio test. *)
Definition ratios (t : tableau) (pivot_col : nat) : list ratio :=
  let rhs := rhs_column t in
  let col := constraint_column t pivot_col in
  Np.where_ratio col rhs.

(** [_find_pivot] answers a Python pair, either component of which can be
    [None]: [(None, None)] when no objective entry is positive,
    [(pivot_col, None)] when the ratio test finds no row, and
    [(pivot_row, pivot_col)] otherwise. *)
Definition _find_pivot (t : tableau) : option nat * option nat :=
  let obj_row := objective_row t in
  if negb (Np.any Np.gt0 obj_row) then (None, None)
  else
    let pivot_col := entering_column obj_row in
    let ratios := ratios t pivot_col in
    if Np.all Np.is_inf ratios then (Some pivot_col, None)
    else
      let pivot_row := Np.argmin_ratio ratios in
      (Some pivot_row, Some pivot_col).

(** The body of [_pivot] once [pivot_row] and [pivot_col] are numbers.
    [divide_row] is [tableau[pivot_row] /= tableau[pivot_row, pivot_col]];
    [eliminate] is the masked update
    [tableau[mask] -= multipliers * tableau[pivot_row]], where [mask] holds
    every row but [pivot_row] and [multipliers] is column [pivot_col] read
    after the division.  The pivot entry is not zero whenever [_pivot] gets
    here (it is the one [_find_pivot] returns); at a zero entry numpy writes
    [nan] and [inf], which the model does not have, so nothing is stated
    about [pivot_at] there. *)
Definition divide_row (pivot_row pivot_col : nat) (t : tableau) : tableau :=
  let pivot := entry t pivot_row pivot_col in
  Np.imap (fun i row =>
             if Nat.eqb i pivot_row then map (fun x => x / pivot) row
             else row) 0 t.

Definition eliminate (pivot_row pivot_col : nat) (t : tableau) : tableau :=
  let normalized := nth pivot_row t [] in
  Np.imap (fun i row =>
             if Nat.eqb i pivot_row then row
             else
               let multiplier := nth pivot_col row 0 in
               map (fun xy => fst xy - multiplier * snd xy)
                   (combine row normalized)) 0 t.

Definition pivot_at (pivot_row pivot_col : nat) (t : tableau) : tableau :=
  eliminate pivot_row pivot_col (divide_row pivot_row pivot_col t).

(** [_pivot] asks [_find_pivot] itself and unpacks its answer as
    [pivot_row, pivot_col].  When the second component is [None],
    [tableau[pivot_row, None]] is the row with a new axis in front, of shape
    (1, n+1), and dividing the row of shape (n+1,) by it in place is refused
    by numpy ([ValueError]: the output cannot be broadcast); the same happens
    with [tableau[None]].  An index outside the matrix is an [IndexError]. *)
Definition _pivot (t : tableau) : exn + tableau :=
  match _find_pivot t with
  | (Some pivot_row, Some pivot_col) =>
      if Nat.ltb pivot_row (shape0 t) && Nat.ltb pivot_col (shape1 t)
      then inr (pivot_at pivot_row pivot_col t)
      else inl IndexError
  | (Some pivot_row, None) =>
      if Nat.ltb pivot_row (shape0 t) then inl ValueError
      else inl IndexError
  | (None, _) => inl ValueError
  end.

(** [_is_pivot_col]: exactly one entry of the constraint part is above the
    tolerance in absolute value, and the entry of largest absolute value is
    within the tolerance of 1. *)
Definition _is_pivot_col (col : list Q) : bool :=
  let constraint_part := removelast col in
  let nonzero_count :=
    Np.count_nonzero (fun x => Np.lt tol x) (Np.abs constraint_part) in
  if negb (Nat.eqb nonzero_count 1) then false
  else
    let nonzero_idx := Np.argmax (Np.abs constraint_part) in
    Np.lt (Qabs (nth nonzero_idx constraint_part 0 - 1)) tol.

(** [_primal_solution]: the loop over the variable columns, appending
    [(j, value)] for each column that [_is_pivot_col] accepts.  The row is
    found by [np.argmax(np.abs(col))] on the whole column [tableau[:, j]],
    objective row included. *)
Definition _primal_solution (t : tableau) : list (nat * Q) :=
  let num_vars := (shape1 t - 1)%nat in
  fold_left
    (fun solution j =>
       let col := full_column t j in
       if _is_pivot_col col then
         let pivot_row := Np.argmax (Np.abs col) in
         let value := last (nth pivot_row t []) 0 in
         solution ++ [(j, value)]
       else solution)
    (seq 0 num_vars) [].

(** [_objective_value]: [-tableau[-1, -1]]. *)
Definition _objective_value (t : tableau) : Q := - last (last t []) 0.

(** What [solve] hands back: the triple it returns, or the exception that
    leaves it. *)
Inductive result : Type :=
| Return (t : tableau) (solution : option (list (nat * Q)))
         (obj_value : option Q)
| Raise (e : exn).

(** One run of the body of the [while] loop of [solve]. *)
Inductive step : Type :=
| Next (t' : tableau)
| ReturnUnbounded (t : tableau)
| RaiseFrom (e : exn).

Definition loop_body (t : tableau) : step :=
  let '(pivot_row, pivot_col) := _find_pivot t in
  match pivot_row with
  | None => ReturnUnbounded t
  | Some _ =>
      match _pivot t with
      | inl e => RaiseFrom e
      | inr t' => Next t'
      end
  end.

(** How the [while] loop is left. *)
Inductive loop_exit : Type :=
| Done (iteration : nat) (t : tableau)
| Returned (t : tableau)
| Raised (e : exn).

(** The loop [while self._continue(tableau) and iteration < max_iters].
    It runs at most [max_iters] times, so [budget], which starts at
    [max_iters] and counts the runs left, is structural; with
    [iteration + budget = max_iters] the test is false when the budget is
    used up (see [while_loop_budget]). *)
Fixpoint while_loop (max_iters budget iteration : nat) (t : tableau)
    : loop_exit :=
  if _continue t && Nat.ltb iteration max_iters then
    match budget with
    | O => Done iteration t
    | S budget' =>
        match loop_body t with
        | Next t' => while_loop max_iters budget' (S iteration) t'
        | ReturnUnbounded t' => Returned t'
        | RaiseFrom e => Raised e
        end
    end
  else Done iteration t.

Definition unbounded_message : string :=
  "Problem is unbounded!"%string.
Definition limit_message : string :=
  "Warning: Maximum iterations reached!"%string.

(** [Simplex(c, A, b, max_iters=max_iters).solve()]: the lines printed and
    the result. *)
Definition solve (c : list Q) (A : list (list Q)) (b : list Q)
    (max_iters : nat) : list string * result :=
  let t0 := _build_tableau c A b in
  match while_loop max_iters max_iters 0 t0 with
  | Returned t => ([unbounded_message], Return t None None)
  | Raised e => ([], Raise e)
  | Done iteration t =>
      let warning :=
        if Nat.leb max_iters iteration then [limit_message] else [] in
      let solution := _primal_solution t in
      let obj_value := _objective_value t in
      (warning, Return t (Some solution) (Some obj_value))
  end.

(** [solve] called on an object whose tableau is [t]: the constructor
    builds [self.tableau] once, [solve] works on it in place, and a later
    call of [solve] on the same object starts from the tableau that the
    call before it left, with the iteration count back at 0. *)
Definition solve_on (t0 : tableau) (max_iters : nat)
    : list string * result :=
  match while_loop max_iters max_iters 0 t0 with
  | Returned t => ([unbounded_message], Return t None None)
  | Raised e => ([], Raise e)
  | Done iteration t =>
      let warning :=
        if Nat.leb max_iters iteration then [limit_message] else [] in
      let solution := _primal_solution t in
      let obj_value := _objective_value t in
      (warning, Return t (Some solution) (Some obj_value))
  end.

(** ** Pivot selection on doubles

    The quotient [rhs / col] of the ratio test is the one place where
    [_find_pivot] computes; everything else in it compares.  [Float64]
    embeds [_find_pivot] once more, on IEEE 754 binary64 numbers, to show
    what the rounding and the overflow of that quotient do to the leaving
    row. *)
Module Float64.
Import PrimFloat.

Definition tableau := list (list float).

(** [tableau[i, j]]. *)
Definition entry (t : tableau) (i j : nat) : float :=
  nth j (nth i t []) zero.

(** [x > 0] on doubles; false of NaN. *)
Definition gt0 (x : float) : bool := ltb zero x.

(** [r == np.inf]. *)
Definition is_inf (r : float) : bool := eqb r infinity.

(** [np.where(arr > 0)[0]]. *)
Definition where_gt0 (arr : list float) : list nat :=
  filter (fun j => gt0 (nth j arr zero)) (seq 0 (length arr)).

(** [np.argmin] on doubles: numpy moves to an entry [x] when
    [not (x >= best)], so to the first smaller entry or to a NaN, and it
    stops at a NaN. *)
Fixpoint argmin_scan (best : float) (best_i i : nat) (rest : list float)
    : nat :=
  match rest with
  | [] => best_i
  | x :: rest' =>
      if negb (leb best x)
      then if is_nan x then i else argmin_scan x i (S i) rest'
      else argmin_scan best best_i (S i) rest'
  end.

Definition argmin (arr : list float) : nat :=
  match arr with
  | [] => 0%nat
  | x :: rest => if is_nan x then 0%nat else argmin_scan x 0 1 rest
  end.

(** [tableau[-1, :-1]], [tableau[:-1, -1]] and [tableau[:-1, j]]. *)
Definition objective_row (t : tableau) : list float :=
  removelast (last t []).

Definition rhs_column (t : tableau) : list float :=
  map (fun row => last row zero) (removelast t).

Definition constraint_column (t : tableau) (j : nat) : list float :=
  map (fun row => nth j row zero) (removelast t).

(** Lines 44 to 46 of [_find_pivot]. *)
Definition entering_column (obj_row : list float) : nat :=
  let positive_indices := where_gt0 obj_row in
  let positive_values :=
    map (fun j => nth j obj_row zero) positive_indices in
  nth (argmin positive_values) positive_indices 0%nat.

(** Lines 48 to 52 of [_find_pivot]: [div] is the division of doubles. *)
Definition ratios (t : tableau) (pivot_col : nat) : list float :=
  let rhs := rhs_column t in
  let col := constraint_column t pivot_col in
  map (fun cr => if gt0 (fst cr) then div (snd cr) (fst cr) else infinity)
      (combine col rhs).

Definition _find_pivot (t : tableau) : option nat * option nat :=
  let obj_row := objective_row t in
  if negb (existsb gt0 obj_row) then (None, None)
  else
    let pivot_col := entering_column obj_row in
    let ratios := ratios t pivot_col in
    if forallb is_inf ratios then (Some pivot_col, None)
    else
      let pivot_row := argmin ratios in
      (Some pivot_row, Some pivot_col).

(** The number that a finite double is. *)
Definition to_Q (x : float) : Q :=
  match FloatOps.Prim2SF x with
  | SpecFloat.S754_finite negative mantissa exponent =>
      let magnitude := (inject_Z (Z.pos mantissa) * Qpower 2 exponent)%Q in
      if negative then Qopp magnitude else magnitude
  | _ => 0%Q
  end.

(** One constraint [2^-600 x <= 2^600], objective [x]. *)
Definition overflow_tableau : tableau :=
  [[0x1p-600%float; 0x1p600%float]; [1%float; 0%float]].

(** Two constraints, [3 x <= 1] and [2^54 x <= 6004799503160661],
    objective [x]. *)
Definition rounding_tableau : tableau :=
  [[3%float; 1%float];
   [0x1p54%float; 6004799503160661%float];
   [1%float; 0%float]].

End Float64.

(** ** Vocabulary of the properties *)

(** Position [k] holds the first best entry of [arr]: no entry beats it,
    and it beats every entry before it. *)
Definition first_best {A : Type} (better : A -> A -> bool) (d : A)
    (arr : list A) (k : nat) : Prop :=
  (k < length arr)%nat /\
  (forall j, (j < length arr)%nat ->
             better (nth j arr d) (nth k arr d) = false) /\
  (forall j, (j < k)%nat -> better (nth k arr d) (nth j arr d) = true).

(** An input of [m] constraints on [n] variables: [A] has [m] rows of [n]
    entries, [b] has [m] entries and [c] has [n].  numpy refuses to stack
    arrays of other shapes. *)
Definition input_shaped (m n : nat) (c : list Q) (A : list (list Q))
    (b : list Q) : Prop :=
  length c = n /\ length A = m /\
  Forall (fun row => length row = n) A /\ length b = m.

(** The basic solution of the tableau is feasible: every right-hand side of
    a constraint row is non-negative. *)
Definition feasible (m n : nat) (t : tableau) : Prop :=
  forall i, (i < m)%nat -> 0 <= entry t i n.

(** The test of a basic column in the words of the specification: in
    column [j], constraint row [i] holds the one entry whose absolute value
    is above the tolerance, and that entry is within the tolerance of 1. *)
Definition basic_column (m : nat) (t : tableau) (j i : nat) : Prop :=
  (i < m)%nat /\
  tol < Qabs (entry t i j) /\
  (forall i', (i' < m)%nat -> i' <> i -> Qabs (entry t i' j) <= tol) /\
  Qabs (entry t i j - 1) < tol.

(** One run of the loop of [solve] that applies a pivot: the loop test
    holds of [t] and the body goes on with [t']. *)
Definition pivot_step (t t' : tableau) : Prop :=
  _continue t = true /\ loop_body t = Next t'.

(** [reached max_iters t0 k t]: started on [t0], the loop of [solve] has
    run [k] times without leaving, and the tableau is then [t]. *)
Inductive reached (max_iters : nat) (t0 : tableau)
    : nat -> tableau -> Prop :=
| reached_start : reached max_iters t0 0 t0
| reached_pivot (k : nat) (t t' : tableau) :
    reached max_iters t0 k t ->
    (k < max_iters)%nat ->
    pivot_step t t' ->
    reached max_iters t0 (S k) t'.

(** The sum of the products of the entries of two vectors; a row [u] of the
    tableau states the equation [dot u (x ++ [-1]) == 0] on the values [x]
    of the variables. *)
Fixpoint dot (u v : list Q) : Q :=
  match u, v with
  | x :: u', y :: v' => x * y + dot u' v'
  | _, _ => 0
  end.

(** The input of the usage example in the docstring of the module. *)
Definition example_c : list Q := [300; 250; 450].
Definition example_A : list (list Q) :=
  [[15; 20; 25]; [35; 60; 60]; [20; 30; 25]; [0; 250; 0]].
Definition example_b : list Q := [1200; 3000; 1500; 500].
Definition example_tableau : tableau :=
  _build_tableau example_c example_A example_b.

(** * Facts about the numpy operations *)

Lemma lt_true (x y : Q) : Np.lt x y = true <-> x < y.
Proof.
  unfold Np.lt. rewrite negb_true_iff.
  split; intro H.
  - apply Qnot_le_lt. intro Hle. apply Qle_bool_iff in Hle. congruence.
  - destruct (Qle_bool y x) eqn:E; [|reflexivity].
    apply Qle_bool_iff in E. exfalso. apply (Qlt_not_le _ _ H E).
Qed.

Lemma lt_false (x y : Q) : Np.lt x y = false <-> y <= x.
Proof.
  unfold Np.lt. rewrite negb_false_iff. apply Qle_bool_iff.
Qed.

Lemma gt0_true (x : Q) : Np.gt0 x = true <-> 0 < x.
Proof. apply lt_true. Qed.

Lemma gt0_false (x : Q) : Np.gt0 x = false <-> x <= 0.
Proof. apply lt_false. Qed.

(** ** The first-best scan

    [np.argmin] and [np.argmax] share one scan; its specification is proved
    once, for any comparison that is a strict weak order. *)
Section ArgFirst.

Context {A : Type}.
Variable better : A -> A -> bool.
Variable d : A.

Hypothesis better_irrefl : forall x, better x x = false.
Hypothesis better_trans :
  forall x y z, better x y = true -> better y z = true -> better x z = true.
Hypothesis better_cut :
  forall x y z, better x z = true -> better y z = false -> better x y = true.

Lemma better_asym (x y : A) : better x y = true -> better y x = false.
Proof.
  intro H. destruct (better y x) eqn:E; [|reflexivity].
  rewrite <- (better_irrefl x). symmetry. now apply better_trans with y.
Qed.

Lemma arg_scan_spec (rest : list A) :
  forall best best_i i,
    (Np.arg_scan better best best_i i rest = best_i /\
     Forall (fun x => better x best = false) rest)
    \/
    (exists k, Np.arg_scan better best best_i i rest = (i + k)%nat /\
               better (nth k rest d) best = true /\
               first_best better d rest k).
Proof.
  unfold first_best.
  induction rest as [|x rest IH]; intros best best_i i; simpl.
  - left. split; [reflexivity | constructor].
  - destruct (better x best) eqn:Hx.
    + right.
      destruct (IH x i (S i)) as [[Hk Hall] | [k [Hk [Hb [Hlen [Hmin Hfst]]]]]].
      * exists 0%nat. rewrite Hk, Nat.add_0_r.
        split; [reflexivity|]. split; [exact Hx|].
        split; [lia|]. split; [|intros j Hj; lia].
        intros [|j] Hj; [apply better_irrefl|].
        rewrite Forall_forall in Hall. apply Hall, nth_In. lia.
      * exists (S k). rewrite Hk.
        split; [lia|]. split; [now apply better_trans with x|].
        split; [lia|]. split.
        -- intros [|j] Hj; [now apply better_asym | apply Hmin; lia].
        -- intros [|j] Hj; [exact Hb | apply Hfst; lia].
    + destruct (IH best best_i (S i))
        as [[Hk Hall] | [k [Hk [Hb [Hlen [Hmin Hfst]]]]]].
      * left. split; [exact Hk | now constructor].
      * right. exists (S k). rewrite Hk.
        split; [lia|]. split; [exact Hb|].
        split; [lia|]. split.
        -- intros [|j] Hj; [|apply Hmin; lia].
           destruct (better x (nth k rest d)) eqn:E; [|reflexivity].
           rewrite <- Hx. symmetry.
           now apply better_trans with (nth k rest d).
        -- intros [|j] Hj; [|apply Hfst; lia].
           now apply better_cut with best.
Qed.

Lemma arg_first_spec (arr : list A) :
  arr <> [] -> first_best better d arr (Np.arg_first better arr).
Proof.
  destruct arr as [|x rest]; [congruence | intros _].
  unfold Np.arg_first, first_best.
  destruct (arg_scan_spec rest x 0%nat 1%nat)
    as [[Hk Hall] | [k [Hk [Hb [Hlen [Hmin Hfst]]]]]]; rewrite Hk; simpl.
  - split; [lia|]. split; [|intros j Hj; lia].
    intros [|j] Hj; [apply better_irrefl|].
    rewrite Forall_forall in Hall. apply Hall, nth_In. lia.
  - split; [lia|]. split.
    + intros [|j] Hj; [now apply better_asym | apply Hmin; lia].
    + intros [|j] Hj; [exact Hb | apply Hfst; lia].
Qed.

End ArgFirst.

Lemma argmin_spec (arr : list Q) :
  arr <> [] -> first_best Np.lt 0 arr (Np.argmin arr).
Proof.
  apply arg_first_spec.
  - intro x. apply lt_false. apply Qle_refl.
  - intros x y z. rewrite !lt_true. apply Qlt_trans.
  - intros x y z. rewrite !lt_true, lt_false. intros H1 H2.
    now apply Qlt_le_trans with z.
Qed.

Lemma argmax_spec (arr : list Q) :
  arr <> [] -> first_best (fun x y => Np.lt y x) 0 arr (Np.argmax arr).
Proof.
  apply arg_first_spec.
  - intro x. apply lt_false. apply Qle_refl.
  - intros x y z. rewrite !lt_true. intros H1 H2.
    now apply Qlt_trans with y.
  - intros x y z. rewrite !lt_true, lt_false. intros H1 H2.
    now apply Qle_lt_trans with z.
Qed.

Lemma argmin_ratio_spec (arr : list ratio) :
  arr <> [] -> first_best Np.ratio_lt Inf arr (Np.argmin_ratio arr).
Proof.
  apply arg_first_spec.
  - intros [x|]; simpl; [|reflexivity]. apply lt_false, Qle_refl.
  - intros [x|] [y|] [z|]; simpl; try congruence.
    rewrite !lt_true. apply Qlt_trans.
  - intros [x|] [y|] [z|]; simpl; try congruence.
    rewrite !lt_true, lt_false. intros H1 H2.
    now apply Qlt_le_trans with z.
Qed.

(** ** Indices of the positive entries *)

Lemma where_gt0_In (arr : list Q) (j : nat) :
  In j (Np.where_gt0 arr) <-> (j < length arr)%nat /\ 0 < nth j arr 0.
Proof.
  unfold Np.where_gt0. rewrite filter_In, in_seq, gt0_true.
  intuition lia.
Qed.

Lemma filter_seq_increasing (f : nat -> bool) (len : nat) :
  forall start i j,
    (i < j)%nat -> (j < length (filter f (seq start len)))%nat ->
    (nth i (filter f (seq start len)) 0 < nth j (filter f (seq start len)) 0)%nat.
Proof.
  induction len as [|len IH]; intros start i j Hij Hj; simpl in *; [lia|].
  destruct (f start); [|now apply IH].
  destruct j as [|j]; [lia|]. simpl in Hj.
  destruct i as [|i]; simpl; [|apply IH; lia].
  assert (Hin : In (nth j (filter f (seq (S start) len)) 0%nat)
                   (filter f (seq (S start) len))) by (apply nth_In; lia).
  apply filter_In in Hin. destruct Hin as [Hin _].
  apply in_seq in Hin. lia.
Qed.

(** ** Slices of a shaped tableau *)

Lemma nth_removelast {A : Type} (l : list A) (d : A) (i : nat) :
  (i < length (removelast l))%nat -> nth i (removelast l) d = nth i l d.
Proof.
  rewrite removelast_firstn_len, nth_firstn, length_firstn.
  intro H. destruct (i <? Init.Nat.pred (length l))%nat eqn:E;
    [reflexivity|].
  apply Nat.ltb_ge in E. lia.
Qed.

Lemma length_removelast {A : Type} (l : list A) :
  length (removelast l) = Init.Nat.pred (length l).
Proof.
  rewrite removelast_firstn_len, length_firstn. lia.
Qed.

Lemma last_nth {A : Type} (l : list A) (d : A) :
  last l d = nth (Init.Nat.pred (length l)) l d.
Proof.
  induction l as [|x l IH]; [reflexivity|].
  destruct l as [|y l]; [reflexivity|].
  change (last (x :: y :: l) d) with (last (y :: l) d).
  rewrite IH. reflexivity.
Qed.

Section Shaped.

Variables m n : nat.
Variable t : tableau.
Hypothesis Hshape : shaped m n t.

Lemma shaped_length : length t = S m.
Proof. apply Hshape. Qed.

Lemma shaped_row (i : nat) : (i <= m)%nat -> length (nth i t []) = S n.
Proof.
  destruct Hshape as [Hlen Hrows]. intro Hi.
  rewrite Forall_forall in Hrows. apply Hrows, nth_In. lia.
Qed.

Lemma shaped_last : last t [] = nth m t [].
Proof. rewrite last_nth, shaped_length. reflexivity. Qed.

Lemma shaped_shape1 : shape1 t = S n.
Proof.
  unfold shape1. destruct Hshape as [Hlen Hrows].
  destruct t as [|row rows]; [discriminate|].
  now inversion Hrows.
Qed.

Lemma objective_row_length : length (objective_row t) = n.
Proof.
  unfold objective_row.
  rewrite length_removelast, shaped_last, shaped_row; [reflexivity | lia].
Qed.

Lemma objective_row_nth (j : nat) :
  (j < n)%nat -> nth j (objective_row t) 0 = entry t m j.
Proof.
  intro Hj. unfold objective_row, entry.
  rewrite nth_removelast, shaped_last; [reflexivity|].
  fold (objective_row t). rewrite objective_row_length. exact Hj.
Qed.

Lemma constraint_column_length (j : nat) :
  length (constraint_column t j) = m.
Proof.
  unfold constraint_column.
  rewrite length_map, length_removelast, shaped_length. reflexivity.
Qed.

End Shaped.

(** * Pivot selection *)

Lemma nth_map_in {A B : Type} (f : A -> B) (l : list A) (i : nat)
    (dA : A) (dB : B) :
  (i < length l)%nat -> nth i (map f l) dB = f (nth i l dA).
Proof.
  intro Hi. rewrite (nth_indep _ dB (f dA)) by (rewrite length_map; exact Hi).
  apply map_nth.
Qed.

Lemma any_gt0_true (arr : list Q) :
  Np.any Np.gt0 arr = true <->
  exists j, (j < length arr)%nat /\ 0 < nth j arr 0.
Proof.
  unfold Np.any. rewrite existsb_exists. split.
  - intros [x [Hin Hx]]. apply (In_nth _ _ 0) in Hin.
    destruct Hin as [j [Hj Hn]]. exists j. rewrite Hn.
    split; [exact Hj | now apply gt0_true].
  - intros [j [Hj Hp]]. exists (nth j arr 0).
    split; [now apply nth_In | now apply gt0_true].
Qed.

Lemma any_gt0_false (arr : list Q) :
  Np.any Np.gt0 arr = false ->
  forall j, (j < length arr)%nat -> nth j arr 0 <= 0.
Proof.
  intros Hany j Hj. apply gt0_false.
  destruct (Np.gt0 (nth j arr 0)) eqn:E; [|reflexivity].
  rewrite <- Hany. symmetry. apply any_gt0_true.
  exists j. split; [exact Hj | now apply gt0_true].
Qed.

(** Lines 44 to 46 of the source: the entering column holds the smallest
    positive entry of the objective row, and is the first to do so. *)
Lemma entering_column_spec (obj_row : list Q) :
  Np.any Np.gt0 obj_row = true ->
  let pivot_col := entering_column obj_row in
  (pivot_col < length obj_row)%nat /\
  0 < nth pivot_col obj_row 0 /\
  (forall j, (j < length obj_row)%nat -> 0 < nth j obj_row 0 ->
             nth pivot_col obj_row 0 <= nth j obj_row 0) /\
  (forall j, (j < pivot_col)%nat -> 0 < nth j obj_row 0 ->
             nth pivot_col obj_row 0 < nth j obj_row 0).
Proof.
  intros Hany. unfold entering_column.
  set (P := Np.where_gt0 obj_row).
  set (V := Np.take obj_row P).
  assert (HPne : P <> []).
  { apply any_gt0_true in Hany. destruct Hany as [j Hj].
    apply where_gt0_In in Hj. fold P in Hj. intro E. now rewrite E in Hj. }
  assert (HVne : V <> []).
  { unfold V, Np.take. intro E. apply map_eq_nil in E. contradiction. }
  assert (HV : forall i, (i < length P)%nat ->
                         nth i V 0 = nth (nth i P 0%nat) obj_row 0).
  { intros i Hi. unfold V, Np.take.
    now rewrite (nth_map_in _ _ _ 0%nat). }
  assert (HlenV : length V = length P) by apply length_map.
  destruct (argmin_spec V HVne) as [Hk [Hmin Hfst]].
  set (k := Np.argmin V) in *. rewrite HlenV in Hk, Hmin.
  assert (Hpc : In (nth k P 0%nat) P) by now apply nth_In.
  apply where_gt0_In in Hpc. destruct Hpc as [Hpc1 Hpc2].
  cbv zeta. repeat split; try assumption.
  - intros j Hj Hpos.
    assert (Hin : In j P) by now apply where_gt0_In.
    apply (In_nth _ _ 0%nat) in Hin. destruct Hin as [i [Hi Hnth]].
    specialize (Hmin i Hi). rewrite !HV in Hmin by assumption.
    rewrite Hnth in Hmin. now apply lt_false in Hmin.
  - intros j Hj Hpos.
    assert (Hin : In j P) by (apply where_gt0_In; split; [lia | assumption]).
    apply (In_nth _ _ 0%nat) in Hin. destruct Hin as [i [Hi Hnth]].
    assert (Hik : (i < k)%nat).
    { destruct (Nat.lt_trichotomy i k) as [Hlt | [Heq | Hgt]];
        [exact Hlt | subst i; lia |].
      pose proof (filter_seq_increasing
                    (fun j => Np.gt0 (nth j obj_row 0)) (length obj_row)
                    0%nat k i Hgt Hi) as Hinc.
      fold (Np.where_gt0 obj_row) in Hinc. fold P in Hinc. lia. }
    specialize (Hfst i Hik). rewrite !HV in Hfst by assumption.
    rewrite Hnth in Hfst. now apply lt_true in Hfst.
Qed.

(** The three answers of [_find_pivot], read backwards. *)
Lemma find_pivot_optimal (t : tableau) (second : option nat) :
  _find_pivot t = (None, second) ->
  Np.any Np.gt0 (objective_row t) = false /\ second = None.
Proof.
  unfold _find_pivot.
  destruct (Np.any Np.gt0 (objective_row t)); simpl.
  - destruct (Np.all _ _); discriminate.
  - intro H. inversion H. split; reflexivity.
Qed.

Lemma find_pivot_unbounded (t : tableau) (first : nat) :
  _find_pivot t = (Some first, None) ->
  Np.any Np.gt0 (objective_row t) = true /\
  first = entering_column (objective_row t) /\
  Np.all Np.is_inf (ratios t first) = true.
Proof.
  unfold _find_pivot.
  destruct (Np.any Np.gt0 (objective_row t)); simpl; [|discriminate].
  destruct (Np.all _ _) eqn:E; [|discriminate].
  intro H. inversion H. subst. repeat split. exact E.
Qed.

Lemma find_pivot_pair (t : tableau) (pivot_row pivot_col : nat) :
  _find_pivot t = (Some pivot_row, Some pivot_col) ->
  Np.any Np.gt0 (objective_row t) = true /\
  pivot_col = entering_column (objective_row t) /\
  Np.all Np.is_inf (ratios t pivot_col) = false /\
  pivot_row = Np.argmin_ratio (ratios t pivot_col).
Proof.
  unfold _find_pivot.
  destruct (Np.any Np.gt0 (objective_row t)); simpl; [|discriminate].
  destruct (Np.all _ _) eqn:E; [discriminate|].
  intro H. inversion H. subst. repeat split. exact E.
Qed.

(** ** The ratio test *)

Lemma ratios_length (t : tableau) (pivot_col : nat) :
  length (ratios t pivot_col) = length (removelast t).
Proof.
  unfold ratios, Np.where_ratio, constraint_column, rhs_column.
  rewrite length_map, length_combine, !length_map. apply Nat.min_id.
Qed.

Lemma ratios_nth (t : tableau) (pivot_col i : nat) :
  (i < length (removelast t))%nat ->
  nth i (ratios t pivot_col) Inf =
  if Np.gt0 (entry t i pivot_col)
  then Fin (last (nth i t []) 0 / entry t i pivot_col)
  else Inf.
Proof.
  intro Hi. unfold ratios, Np.where_ratio, constraint_column, rhs_column.
  rewrite (nth_map_in _ _ _ (0, 0))
    by (rewrite length_combine, !length_map, Nat.min_id; exact Hi).
  rewrite combine_nth by (rewrite !length_map; reflexivity).
  rewrite (nth_map_in _ _ _ []) by exact Hi.
  rewrite (nth_map_in _ _ _ []) by exact Hi.
  rewrite nth_removelast by exact Hi.
  reflexivity.
Qed.

Lemma all_is_inf_false (arr : list ratio) :
  Np.all Np.is_inf arr = false ->
  exists i q, (i < length arr)%nat /\ nth i arr Inf = Fin q.
Proof.
  induction arr as [|[q|] arr IH]; simpl; [discriminate | |].
  - intros _. exists 0%nat, q. split; [lia | reflexivity].
  - intro H. destruct (IH H) as [i [q [Hi Hq]]].
    exists (S i), q. split; [lia | exact Hq].
Qed.

(** Lines 54 to 57: the leaving row holds the smallest finite ratio, and is
    the first to do so. *)
Lemma ratio_test_spec (arr : list ratio) :
  Np.all Np.is_inf arr = false ->
  let pivot_row := Np.argmin_ratio arr in
  (pivot_row < length arr)%nat /\
  exists q, nth pivot_row arr Inf = Fin q /\
    (forall i q', (i < length arr)%nat -> nth i arr Inf = Fin q' ->
                  q <= q') /\
    (forall i q', (i < pivot_row)%nat -> nth i arr Inf = Fin q' ->
                  q < q').
Proof.
  intro Hall. destruct (all_is_inf_false arr Hall) as [i0 [q0 [Hi0 Hq0]]].
  assert (Hne : arr <> []) by (intro E; subst; simpl in Hi0; lia).
  destruct (argmin_ratio_spec arr Hne) as [Hk [Hmin Hfst]].
  cbv zeta. split; [exact Hk|].
  destruct (nth (Np.argmin_ratio arr) arr Inf) as [q|] eqn:Hq.
  - exists q. split; [reflexivity|]. split.
    + intros i q' Hi Hq'. specialize (Hmin i Hi). rewrite Hq' in Hmin.
      simpl in Hmin. now apply lt_false in Hmin.
    + intros i q' Hi Hq'. specialize (Hfst i Hi). rewrite Hq' in Hfst.
      simpl in Hfst. now apply lt_true in Hfst.
  - specialize (Hmin i0 Hi0). rewrite Hq0 in Hmin. discriminate.
Qed.

(** * Pivot execution *)

Lemma imap_length {A B : Type} (f : nat -> A -> B) (rows : list A) :
  forall start, length (Np.imap f start rows) = length rows.
Proof.
  induction rows as [|row rows IH]; intro start; simpl;
    [reflexivity | now rewrite IH].
Qed.

Lemma imap_nth {A B : Type} (f : nat -> A -> B) (rows : list A)
    (dA : A) (dB : B) :
  forall start i,
    (i < length rows)%nat ->
    nth i (Np.imap f start rows) dB = f (start + i)%nat (nth i rows dA).
Proof.
  induction rows as [|row rows IH]; intros start i Hi; simpl in *; [lia|].
  destruct i as [|i].
  - now rewrite Nat.add_0_r.
  - rewrite IH by lia. f_equal. lia.
Qed.

Lemma imap_shaped (m n : nat) (f : nat -> list Q -> list Q) (t : tableau) :
  shaped m n t ->
  (forall i row, length row = S n -> length (f i row) = S n) ->
  forall start, shaped m n (Np.imap f start t).
Proof.
  intros [Hlen Hrows] Hf start. split; [now rewrite imap_length|].
  clear Hlen. revert start.
  induction Hrows as [|row rows Hrow Hrows IH]; intro start; simpl;
    constructor; auto.
Qed.

Section PivotAt.

Variables m n : nat.
Variable t : tableau.
Variables r c : nat.
Hypothesis Hshape : shaped m n t.
Hypothesis Hr : (r <= m)%nat.

Lemma divide_row_shaped : shaped m n (divide_row r c t).
Proof.
  apply imap_shaped; [exact Hshape|].
  intros i row Hrow. destruct (Nat.eqb i r); [|exact Hrow].
  now rewrite length_map.
Qed.

Lemma divide_row_entry (i j : nat) :
  (i <= m)%nat -> (j <= n)%nat ->
  entry (divide_row r c t) i j =
  if Nat.eqb i r then entry t r j / entry t r c else entry t i j.
Proof.
  intros Hi Hj. unfold entry at 1, divide_row.
  rewrite (imap_nth _ _ []) by (rewrite (shaped_length m n t Hshape); lia).
  simpl. destruct (Nat.eqb i r) eqn:E; [|reflexivity].
  apply Nat.eqb_eq in E. subst i.
  rewrite (nth_map_in _ _ _ 0)
    by (rewrite (shaped_row m n t Hshape) by exact Hr; lia).
  reflexivity.
Qed.

Lemma eliminate_shaped : shaped m n (eliminate r c t).
Proof.
  apply imap_shaped; [exact Hshape|].
  intros i row Hrow. destruct (Nat.eqb i r); [exact Hrow|].
  rewrite length_map, length_combine, Hrow.
  rewrite (shaped_row m n t Hshape) by exact Hr. apply Nat.min_id.
Qed.

Lemma eliminate_entry (i j : nat) :
  (i <= m)%nat -> (j <= n)%nat ->
  entry (eliminate r c t) i j =
  if Nat.eqb i r then entry t i j
  else entry t i j - entry t i c * entry t r j.
Proof.
  intros Hi Hj. unfold entry at 1, eliminate.
  rewrite (imap_nth _ _ []) by (rewrite (shaped_length m n t Hshape); lia).
  simpl. destruct (Nat.eqb i r) eqn:E; [reflexivity|].
  pose proof (shaped_row m n t Hshape i Hi) as Hrow_i.
  pose proof (shaped_row m n t Hshape r Hr) as Hrow_r.
  rewrite (nth_map_in _ _ _ (0, 0))
    by (rewrite length_combine, Hrow_i, Hrow_r, Nat.min_id; lia).
  rewrite combine_nth by congruence.
  reflexivity.
Qed.

End PivotAt.

Lemma pivot_at_shaped (m n : nat) (t : tableau) (r c : nat) :
  shaped m n t -> (r <= m)%nat -> shaped m n (pivot_at r c t).
Proof.
  intros Hshape Hr. unfold pivot_at.
  apply eliminate_shaped; [|exact Hr]. now apply divide_row_shaped.
Qed.

(** Every entry of the tableau after the pivot, in terms of the tableau
    before it. *)
Lemma pivot_at_entry (m n : nat) (t : tableau) (r c i j : nat) :
  shaped m n t -> (r <= m)%nat -> (c <= n)%nat ->
  (i <= m)%nat -> (j <= n)%nat ->
  entry (pivot_at r c t) i j =
  if Nat.eqb i r then entry t r j / entry t r c
  else entry t i j - entry t i c * (entry t r j / entry t r c).
Proof.
  intros Hshape Hr Hc Hi Hj. unfold pivot_at.
  pose proof (divide_row_shaped m n t r c Hshape) as Hshape1.
  rewrite (eliminate_entry m n _ r c Hshape1 Hr i j Hi Hj).
  rewrite !(divide_row_entry m n t r c Hshape Hr) by assumption.
  rewrite Nat.eqb_refl.
  destruct (Nat.eqb i r) eqn:E; [|reflexivity].
  apply Nat.eqb_eq in E. now subst i.
Qed.

(** C5.  Pivot execution is one step of Gauss-Jordan elimination.  For a
    tableau of shape (m+1, n+1) and a position (r, c) in it whose entry is
    not zero, the body of [_pivot] yields a tableau of the same shape in
    which row r is the old row r divided entrywise by the old pivot entry,
    so that entry (r, c) is 1, and every other row i, the objective row
    included, is the old row i minus the old entry (i, c) times the new row
    r, so that entry (i, c) is 0.  All entries being accounted for, no other
    combination of rows occurs. *)
Theorem pivot_at_gauss_jordan (m n : nat) (t : tableau) (r c : nat) :
  shaped m n t -> (r <= m)%nat -> (c <= n)%nat ->
  ~ entry t r c == 0 ->
  let t' := pivot_at r c t in
  shaped m n t' /\
  (forall j, (j <= n)%nat -> entry t' r j == entry t r j / entry t r c) /\
  entry t' r c == 1 /\
  (forall i, (i <= m)%nat -> i <> r ->
     (forall j, (j <= n)%nat ->
        entry t' i j == entry t i j - entry t i c * entry t' r j) /\
     entry t' i c == 0).
Proof.
  intros Hshape Hr Hc Hnz t'. subst t'.
  split; [now apply pivot_at_shaped|].
  assert (Hrow : forall j, (j <= n)%nat ->
            entry (pivot_at r c t) r j = entry t r j / entry t r c).
  { intros j Hj. rewrite (pivot_at_entry m n) by assumption.
    now rewrite Nat.eqb_refl. }
  split; [intros j Hj; now rewrite Hrow|].
  split; [rewrite Hrow by exact Hc; now field|].
  intros i Hi Hir.
  assert (Hother : forall j, (j <= n)%nat ->
            entry (pivot_at r c t) i j =
            entry t i j - entry t i c * (entry t r j / entry t r c)).
  { intros j Hj. rewrite (pivot_at_entry m n) by assumption.
    apply Nat.eqb_neq in Hir. now rewrite Hir. }
  split.
  - intros j Hj. rewrite Hother, Hrow by exact Hj. reflexivity.
  - rewrite Hother by exact Hc. now field.
Qed.

(** * Pivot selection on a shaped tableau *)

Lemma shaped_removelast_length (m n : nat) (t : tableau) :
  shaped m n t -> length (removelast t) = m.
Proof.
  intro Hshape. now rewrite length_removelast, (shaped_length m n t Hshape).
Qed.

Lemma shaped_rhs (m n : nat) (t : tableau) (i : nat) :
  shaped m n t -> (i <= m)%nat -> last (nth i t []) 0 = entry t i n.
Proof.
  intros Hshape Hi.
  now rewrite last_nth, (shaped_row m n t Hshape i Hi).
Qed.

Lemma shaped_ratios_nth (m n : nat) (t : tableau) (pivot_col i : nat) :
  shaped m n t -> (i < m)%nat ->
  nth i (ratios t pivot_col) Inf =
  if Np.gt0 (entry t i pivot_col)
  then Fin (entry t i n / entry t i pivot_col)
  else Inf.
Proof.
  intros Hshape Hi.
  rewrite ratios_nth by (rewrite (shaped_removelast_length m n); assumption).
  rewrite (shaped_rhs m n) by (assumption || lia). reflexivity.
Qed.

(** What the ratio test picks, in terms of the entries of the tableau. *)
Lemma ratio_test_shaped (m n : nat) (t : tableau) (pivot_col : nat) :
  shaped m n t ->
  Np.all Np.is_inf (ratios t pivot_col) = false ->
  let pivot_row := Np.argmin_ratio (ratios t pivot_col) in
  (pivot_row < m)%nat /\
  0 < entry t pivot_row pivot_col /\
  (forall i, (i < m)%nat -> 0 < entry t i pivot_col ->
     entry t pivot_row n / entry t pivot_row pivot_col
     <= entry t i n / entry t i pivot_col) /\
  (forall i, (i < pivot_row)%nat -> 0 < entry t i pivot_col ->
     entry t pivot_row n / entry t pivot_row pivot_col
     < entry t i n / entry t i pivot_col).
Proof.
  intros Hshape Hall.
  destruct (ratio_test_spec _ Hall) as [Hr [q [Hq [Hmin Hfst]]]].
  cbv zeta. set (r := Np.argmin_ratio (ratios t pivot_col)) in *.
  rewrite ratios_length, (shaped_removelast_length m n t Hshape) in Hr, Hmin.
  rewrite (shaped_ratios_nth m n) in Hq by assumption.
  destruct (Np.gt0 (entry t r pivot_col)) eqn:Hpos; [|discriminate].
  apply gt0_true in Hpos. inversion Hq as [Hq']. clear Hq. subst q.
  split; [exact Hr|]. split; [exact Hpos|]. split.
  - intros i Hi Hip. apply (Hmin i); [exact Hi|].
    rewrite (shaped_ratios_nth m n) by assumption.
    apply gt0_true in Hip. now rewrite Hip.
  - intros i Hi Hip. apply (Hfst i); [exact Hi|].
    rewrite (shaped_ratios_nth m n) by (assumption || lia).
    apply gt0_true in Hip. now rewrite Hip.
Qed.

Lemma ratios_not_all_inf (m n : nat) (t : tableau) (pivot_col : nat) :
  shaped m n t ->
  (exists i, (i < m)%nat /\ 0 < entry t i pivot_col) ->
  Np.all Np.is_inf (ratios t pivot_col) = false.
Proof.
  intros Hshape [i [Hi Hpos]].
  destruct (Np.all Np.is_inf (ratios t pivot_col)) eqn:Hall; [|reflexivity].
  unfold Np.all in Hall. rewrite forallb_forall in Hall.
  assert (Hin : In (nth i (ratios t pivot_col) Inf) (ratios t pivot_col)).
  { apply nth_In.
    now rewrite ratios_length, (shaped_removelast_length m n t Hshape). }
  apply Hall in Hin. rewrite (shaped_ratios_nth m n) in Hin by assumption.
  apply gt0_true in Hpos. rewrite Hpos in Hin. discriminate.
Qed.

(** C3.  When some objective-row entry in columns 0..n-1 is strictly
    positive, the column that pivot selection chooses as entering column
    (returned second with a pivot row, first when the ratio test finds no
    row) holds the smallest strictly positive objective-row entry among
    columns 0..n-1, and no column of lower index holds an entry that
    small. *)
Theorem find_pivot_entering_column (m n : nat) (t : tableau) :
  shaped m n t ->
  (exists j, (j < n)%nat /\ 0 < entry t m j) ->
  exists pivot_col,
    (_find_pivot t = (Some pivot_col, None) \/
     exists pivot_row, _find_pivot t = (Some pivot_row, Some pivot_col)) /\
    (pivot_col < n)%nat /\
    0 < entry t m pivot_col /\
    (forall j, (j < n)%nat -> 0 < entry t m j ->
               entry t m pivot_col <= entry t m j) /\
    (forall j, (j < pivot_col)%nat -> 0 < entry t m j ->
               entry t m pivot_col < entry t m j).
Proof.
  intros Hshape [j0 [Hj0 Hpos0]].
  assert (Hany : Np.any Np.gt0 (objective_row t) = true).
  { apply any_gt0_true. exists j0.
    rewrite (objective_row_length m n t Hshape).
    rewrite (objective_row_nth m n t Hshape) by exact Hj0. now split. }
  destruct (entering_column_spec _ Hany) as [Hlt [Hpos [Hmin Hfst]]].
  set (pc := entering_column (objective_row t)) in *.
  rewrite (objective_row_length m n t Hshape) in Hlt, Hmin.
  exists pc. split.
  - unfold _find_pivot. rewrite Hany. simpl. fold pc.
    destruct (Np.all Np.is_inf (ratios t pc)); [now left | right].
    now exists (Np.argmin_ratio (ratios t pc)).
  - rewrite (objective_row_nth m n t Hshape) in Hpos by exact Hlt.
    split; [exact Hlt|]. split; [exact Hpos|]. split.
    + intros j Hj Hjpos.
      rewrite <- !(objective_row_nth m n t Hshape) by assumption.
      apply Hmin; [exact Hj|].
      now rewrite (objective_row_nth m n t Hshape) by assumption.
    + intros j Hj Hjpos.
      rewrite <- !(objective_row_nth m n t Hshape) by (assumption || lia).
      apply Hfst; [exact Hj|].
      now rewrite (objective_row_nth m n t Hshape) by lia.
Qed.

(** C4 (as amended).  In exact arithmetic, when some constraint row has a
    strictly positive entry in the entering column, pivot selection
    returns a pivot row and that column; the row has a strictly positive
    entry in the column, its ratio RHS / entry is the smallest among the
    rows with a strictly positive entry (the other rows do not take part),
    and no such row of lower index has a ratio that small. *)
Theorem find_pivot_leaving_row (m n : nat) (t : tableau) (pivot_col : nat) :
  shaped m n t ->
  (exists j, (j < n)%nat /\ 0 < entry t m j) ->
  pivot_col = entering_column (objective_row t) ->
  (exists i, (i < m)%nat /\ 0 < entry t i pivot_col) ->
  exists pivot_row,
    _find_pivot t = (Some pivot_row, Some pivot_col) /\
    (pivot_row < m)%nat /\
    0 < entry t pivot_row pivot_col /\
    (forall i, (i < m)%nat -> 0 < entry t i pivot_col ->
       entry t pivot_row n / entry t pivot_row pivot_col
       <= entry t i n / entry t i pivot_col) /\
    (forall i, (i < pivot_row)%nat -> 0 < entry t i pivot_col ->
       entry t pivot_row n / entry t pivot_row pivot_col
       < entry t i n / entry t i pivot_col).
Proof.
  intros Hshape [j0 [Hj0 Hpos0]] Hpc Hrow.
  assert (Hany : Np.any Np.gt0 (objective_row t) = true).
  { apply any_gt0_true. exists j0.
    rewrite (objective_row_length m n t Hshape).
    rewrite (objective_row_nth m n t Hshape) by exact Hj0. now split. }
  pose proof (ratios_not_all_inf m n t pivot_col Hshape Hrow) as Hall.
  exists (Np.argmin_ratio (ratios t pivot_col)). split.
  - unfold _find_pivot. rewrite Hany. simpl. rewrite <- Hpc.
    now rewrite Hall.
  - now apply ratio_test_shaped.
Qed.

(** C4 as stated does not hold of the code, whose ratios are quotients
    of doubles.  On [Float64.overflow_tableau] the entering column is
    column 0 and constraint row 0 holds the strictly positive entry 2^-600
    in it, yet the quotient 2^600 / 2^-600 overflows to [np.inf] and pivot
    selection answers [(0, None)]: no leaving row.  On
    [Float64.rounding_tableau] rows 0 and 1 both hold a strictly positive
    entry in the entering column 0, the exact ratio of row 1 is strictly
    below that of row 0, yet the two quotients round to one double and
    pivot selection returns row 0. *)
Lemma find_pivot_leaving_row_on_doubles :
  (Float64.entering_column (Float64.objective_row Float64.overflow_tableau)
   = 0%nat /\
   Float64.gt0 (Float64.entry Float64.overflow_tableau 0 0) = true /\
   Float64._find_pivot Float64.overflow_tableau = (Some 0%nat, None)) /\
  (Float64.gt0 (Float64.entry Float64.rounding_tableau 0 0) = true /\
   Float64.gt0 (Float64.entry Float64.rounding_tableau 1 0) = true /\
   Float64.to_Q (Float64.entry Float64.rounding_tableau 1 1)
   / Float64.to_Q (Float64.entry Float64.rounding_tableau 1 0)
   < Float64.to_Q (Float64.entry Float64.rounding_tableau 0 1)
     / Float64.to_Q (Float64.entry Float64.rounding_tableau 0 0) /\
   Float64._find_pivot Float64.rounding_tableau
   = (Some 0%nat, Some 0%nat)).
Proof. repeat split; vm_compute; reflexivity. Qed.

(** C10.  Whenever pivot selection returns a row and a column, the entry
    of the tableau there is strictly positive, so the pivot entry by which
    pivot execution divides is not zero. *)
Theorem find_pivot_entry_positive (t : tableau) (pivot_row pivot_col : nat) :
  _find_pivot t = (Some pivot_row, Some pivot_col) ->
  0 < entry t pivot_row pivot_col /\
  ~ entry t pivot_row pivot_col == 0 /\
  (forall t', _pivot t = inr t' -> t' = pivot_at pivot_row pivot_col t).
Proof.
  intro Hfind.
  assert (Hpos : 0 < entry t pivot_row pivot_col).
  { destruct (find_pivot_pair _ _ _ Hfind) as [_ [_ [Hall Hrow]]].
    destruct (ratio_test_spec _ Hall) as [Hr [q [Hq _]]].
    rewrite <- Hrow in Hr, Hq. rewrite ratios_length in Hr.
    rewrite ratios_nth in Hq by exact Hr.
    destruct (Np.gt0 (entry t pivot_row pivot_col)) eqn:E; [|discriminate].
    now apply gt0_true. }
  split; [exact Hpos|]. split.
  - intro Hz. rewrite Hz in Hpos. now apply Qlt_irrefl in Hpos.
  - intros t' Hp. unfold _pivot in Hp. rewrite Hfind in Hp.
    destruct (_ && _); [|discriminate]. now inversion Hp.
Qed.

(** * The tableau built from the input *)

Section Build.

Variables m n : nat.
Variable c : list Q.
Variable A : list (list Q).
Variable b : list Q.
Hypothesis Hinput : input_shaped m n c A b.

Lemma build_tableau_shaped : shaped m n (_build_tableau c A b).
Proof.
  destruct Hinput as [Hc [HA [Hrows Hb]]].
  unfold _build_tableau, shaped. split.
  - rewrite length_app, length_map, length_combine, HA, Hb, Nat.min_id.
    simpl. lia.
  - apply Forall_app. split.
    + apply Forall_forall. intros row Hin.
      apply in_map_iff in Hin. destruct Hin as [[ra rb] [Hrow Hin]].
      subst row. simpl. apply in_combine_l in Hin.
      rewrite Forall_forall in Hrows.
      rewrite length_app, (Hrows ra Hin). simpl. lia.
    + constructor; [|constructor].
      rewrite length_app, Hc. simpl. lia.
Qed.

Lemma build_tableau_rhs (i : nat) :
  (i < m)%nat -> entry (_build_tableau c A b) i n = nth i b 0.
Proof.
  destruct Hinput as [Hc [HA [Hrows Hb]]]. intro Hi.
  unfold entry, _build_tableau.
  assert (Hlen : length (combine A b) = m)
    by (rewrite length_combine, HA, Hb; apply Nat.min_id).
  rewrite app_nth1 by (rewrite length_map, Hlen; exact Hi).
  rewrite (nth_map_in _ _ _ ([], 0)) by (rewrite Hlen; exact Hi).
  rewrite combine_nth by congruence. simpl.
  assert (Hrow : length (nth i A []) = n).
  { rewrite Forall_forall in Hrows. apply Hrows, nth_In. lia. }
  rewrite app_nth2 by lia. rewrite Hrow, Nat.sub_diag. reflexivity.
Qed.

Lemma build_tableau_feasible :
  Forall (fun x => 0 <= x) b -> feasible m n (_build_tableau c A b).
Proof.
  intros Hb i Hi. rewrite build_tableau_rhs by exact Hi.
  rewrite Forall_forall in Hb. apply Hb, nth_In.
  destruct Hinput as [_ [_ [_ Hlen]]]. lia.
Qed.

End Build.

(** * The loop of [solve] *)

Lemma loop_body_next (t t' : tableau) :
  loop_body t = Next t' ->
  exists pivot_row pivot_col,
    _find_pivot t = (Some pivot_row, Some pivot_col) /\
    t' = pivot_at pivot_row pivot_col t.
Proof.
  unfold loop_body, _pivot.
  destruct (_find_pivot t) as [[r|] [k|]]; try discriminate.
  - destruct (_ && _); [|discriminate].
    intro H. inversion H. now exists r, k.
  - destruct (Nat.ltb _ _); discriminate.
Qed.

(** Everything pivot selection guarantees about a pivot that [solve]
    applies. *)
Lemma pivot_step_selects (m n : nat) (t t' : tableau) :
  shaped m n t -> pivot_step t t' ->
  exists r k,
    t' = pivot_at r k t /\ (r < m)%nat /\ (k < n)%nat /\
    0 < entry t m k /\ 0 < entry t r k /\
    (forall i, (i < m)%nat -> 0 < entry t i k ->
               entry t r n / entry t r k <= entry t i n / entry t i k).
Proof.
  intros Hshape [_ Hbody].
  destruct (loop_body_next _ _ Hbody) as [r [k [Hfind Ht']]].
  destruct (find_pivot_pair _ _ _ Hfind) as [Hany [Hk [Hall Hr]]].
  destruct (entering_column_spec _ Hany) as [Hlt [Hpos _]].
  rewrite <- Hk in Hlt, Hpos.
  rewrite (objective_row_length m n t Hshape) in Hlt.
  rewrite (objective_row_nth m n t Hshape) in Hpos by exact Hlt.
  destruct (ratio_test_shaped m n t k Hshape Hall) as [Hrm [Hrk [Hmin _]]].
  rewrite <- Hr in Hrm, Hrk, Hmin.
  exists r, k. repeat split; assumption.
Qed.

Lemma pivot_step_shaped (m n : nat) (t t' : tableau) :
  shaped m n t -> pivot_step t t' -> shaped m n t'.
Proof.
  intros Hshape Hstep.
  destruct (pivot_step_selects m n t t' Hshape Hstep)
    as [r [k [Ht' [Hr _]]]].
  subst t'. apply pivot_at_shaped; [exact Hshape | lia].
Qed.

Lemma ratio_nonneg (x p : Q) : 0 <= x -> 0 < p -> 0 <= x / p.
Proof.
  intros Hx Hp. apply Qle_shift_div_l; [exact Hp|].
  now rewrite Qmult_0_l.
Qed.

(** The new right-hand side of a row other than the pivot row. *)
Lemma eliminated_rhs_nonneg (a x q : Q) :
  0 <= x -> 0 <= q -> (0 < a -> q <= x / a) -> 0 <= x - a * q.
Proof.
  intros Hx Hq Hratio.
  destruct (Qlt_le_dec 0 a) as [Ha | Ha].
  - specialize (Hratio Ha).
    assert (Hxa : a * (x / a) == x).
    { apply Qmult_div_r. intro E. rewrite E in Ha.
      now apply Qlt_irrefl in Ha. }
    set (q' := x / a) in *. nra.
  - nra.
Qed.

Lemma pivot_step_feasible (m n : nat) (t t' : tableau) :
  shaped m n t -> feasible m n t -> pivot_step t t' -> feasible m n t'.
Proof.
  intros Hshape Hfeas Hstep.
  destruct (pivot_step_selects m n t t' Hshape Hstep)
    as [r [k [Ht' [Hr [Hk [_ [Hrk Hmin]]]]]]].
  subst t'. intros i Hi.
  rewrite (pivot_at_entry m n) by (assumption || lia).
  assert (Hq : 0 <= entry t r n / entry t r k)
    by (apply ratio_nonneg; [now apply Hfeas | exact Hrk]).
  destruct (Nat.eqb i r); [exact Hq|].
  apply eliminated_rhs_nonneg; [now apply Hfeas | exact Hq|].
  intro Hik. now apply Hmin.
Qed.

Lemma shaped_objective_value (m n : nat) (t : tableau) :
  shaped m n t -> _objective_value t = - entry t m n.
Proof.
  intro Hshape. unfold _objective_value.
  rewrite (shaped_last m n t Hshape).
  now rewrite (shaped_rhs m n t m Hshape) by lia.
Qed.

Lemma pivot_step_objective (m n : nat) (t t' : tableau) :
  shaped m n t -> feasible m n t -> pivot_step t t' ->
  _objective_value t <= _objective_value t'.
Proof.
  intros Hshape Hfeas Hstep.
  pose proof (pivot_step_shaped m n t t' Hshape Hstep) as Hshape'.
  destruct (pivot_step_selects m n t t' Hshape Hstep)
    as [r [k [Ht' [Hr [Hk [Hobj [Hrk _]]]]]]].
  rewrite (shaped_objective_value m n t Hshape).
  rewrite (shaped_objective_value m n t' Hshape').
  subst t'. rewrite (pivot_at_entry m n) by (assumption || lia).
  assert (Hq : 0 <= entry t r n / entry t r k)
    by (apply ratio_nonneg; [now apply Hfeas | exact Hrk]).
  assert (Hmr : Nat.eqb m r = false) by (apply Nat.eqb_neq; lia).
  rewrite Hmr. set (q := entry t r n / entry t r k) in *. nra.
Qed.

Lemma reached_shaped (m n max_iters : nat) (t0 : tableau) :
  shaped m n t0 ->
  forall k t, reached max_iters t0 k t -> shaped m n t.
Proof.
  intros Hshape k t Hreach.
  induction Hreach as [|k t t' _ IH _ Hstep]; [exact Hshape|].
  now apply (pivot_step_shaped m n t).
Qed.

Lemma reached_feasible (m n max_iters : nat) (t0 : tableau) :
  shaped m n t0 -> feasible m n t0 ->
  forall k t, reached max_iters t0 k t -> feasible m n t.
Proof.
  intros Hshape Hfeas k t Hreach.
  induction Hreach as [|k t t' Hreach IH _ Hstep]; [exact Hfeas|].
  apply (pivot_step_feasible m n t); [|exact IH | exact Hstep].
  now apply (reached_shaped m n max_iters t0 Hshape k).
Qed.

(** The budget of [while_loop] is exact: when it is used up the test of
    the loop is false, and the loop is left as the source leaves it. *)
Lemma while_loop_budget (max_iters iteration : nat) (t : tableau) :
  (iteration + 0 = max_iters)%nat ->
  _continue t && Nat.ltb iteration max_iters = false.
Proof.
  intro H. rewrite andb_false_iff. right. apply Nat.ltb_ge. lia.
Qed.

(** [reached] follows the loop, and the loop ends in a reached state. *)
Lemma while_loop_done (max_iters : nat) (t0 : tableau) :
  forall budget iteration t final_iteration final,
    reached max_iters t0 iteration t ->
    (iteration + budget = max_iters)%nat ->
    while_loop max_iters budget iteration t = Done final_iteration final ->
    reached max_iters t0 final_iteration final /\
    (final_iteration <= max_iters)%nat /\
    (final_iteration < max_iters -> _continue final = false)%nat.
Proof.
  induction budget as [|budget IH];
    intros iteration t final_iteration final Hreach Hsum Hloop;
    simpl in Hloop.
  - rewrite while_loop_budget in Hloop by exact Hsum.
    inversion Hloop; subst. split; [exact Hreach|]. split; lia.
  - destruct (_continue t) eqn:Hcont; simpl in Hloop.
    + destruct (Nat.ltb iteration max_iters) eqn:Hlt.
      * apply Nat.ltb_lt in Hlt.
        destruct (loop_body t) as [t'| |] eqn:Hbody; try discriminate.
        apply (IH (S iteration) t'); [|lia | exact Hloop].
        apply (reached_pivot _ _ iteration t); [exact Hreach | exact Hlt|].
        now split.
      * apply Nat.ltb_ge in Hlt. inversion Hloop; subst.
        split; [exact Hreach|]. split; lia.
    + inversion Hloop; subst. split; [exact Hreach|]. split; [lia|].
      intros _. exact Hcont.
Qed.

(** Conversely the loop of [solve] goes through every reached state. *)
Lemma reached_while_loop (max_iters : nat) (t0 : tableau) :
  forall k t,
    reached max_iters t0 k t ->
    (k <= max_iters)%nat /\
    while_loop max_iters max_iters 0 t0 =
    while_loop max_iters (max_iters - k) k t.
Proof.
  intros k t Hreach.
  induction Hreach as [|k t t' _ [Hle IH] Hlt [Hcont Hbody]].
  - split; [lia|]. now rewrite Nat.sub_0_r.
  - split; [lia|]. rewrite IH.
    replace (max_iters - k)%nat with (S (max_iters - S k)) by lia.
    simpl. rewrite Hcont, Hbody.
    apply Nat.ltb_lt in Hlt. now rewrite Hlt.
Qed.

(** * The invariants of the iteration *)


(** C7.  The objective value, the negation of [tableau[m][n]], never
    decreases: on an input whose [b] has no negative entry, a pivot that
    [solve] applies to a tableau it has reached leaves the objective value
    equal or larger.  In exact arithmetic. *)
Theorem solve_objective_non_decreasing (m n : nat) (c : list Q)
    (A : list (list Q)) (b : list Q) (max_iters k : nat) (t t' : tableau) :
  input_shaped m n c A b ->
  Forall (fun x => 0 <= x) b ->
  reached max_iters (_build_tableau c A b) k t ->
  (k < max_iters)%nat ->
  pivot_step t t' ->
  _objective_value t <= _objective_value t'.
Proof.
  intros Hinput Hb Hreach _ Hstep.
  pose proof (build_tableau_shaped m n c A b Hinput) as Hshape0.
  apply (pivot_step_objective m n); [| |exact Hstep].
  - now apply (reached_shaped m n max_iters _ Hshape0 k).
  - apply (reached_feasible m n max_iters _ Hshape0) with k;
      [now apply build_tableau_feasible | exact Hreach].
Qed.

(** C8.  When [solve] returns a solution without the warning of the
    iteration cap, that is when its loop stops before the cap because no
    improvement is possible, no entry of the objective row of the final
    tableau in columns 0..n-1 is strictly positive. *)
Theorem solve_optimal_objective_row (m n : nat) (c : list Q)
    (A : list (list Q)) (b : list Q) (max_iters : nat)
    (final : tableau) (solution : list (nat * Q)) (obj_value : Q) :
  input_shaped m n c A b ->
  solve c A b max_iters = ([], Return final (Some solution) (Some obj_value)) ->
  forall j, (j < n)%nat -> entry final m j <= 0.
Proof.
  intros Hinput Hsolve j Hj. unfold solve in Hsolve.
  destruct (while_loop max_iters max_iters 0 (_build_tableau c A b))
    as [iteration t | t | e] eqn:Hloop; try discriminate.
  destruct (Nat.leb max_iters iteration) eqn:Hcap; [discriminate|].
  apply Nat.leb_gt in Hcap.
  inversion Hsolve; subst final. clear Hsolve.
  destruct (while_loop_done max_iters (_build_tableau c A b)
              max_iters 0%nat _ iteration t
              (reached_start _ _) eq_refl Hloop) as [Hreach [_ Hstop]].
  pose proof (reached_shaped m n max_iters _
                (build_tableau_shaped m n c A b Hinput) _ _ Hreach)
    as Hshape.
  rewrite <- (objective_row_nth m n t Hshape) by exact Hj.
  apply any_gt0_false; [now apply Hstop|].
  now rewrite (objective_row_length m n t Hshape).
Qed.

(** * The unbounded outcome *)

(** Inside the loop the first component of the answer of [_find_pivot] is
    never [None], so the branch of [solve] that returns
    [(tableau, None, None)] is never taken. *)
Lemma loop_body_never_returns (t : tableau) :
  _continue t = true -> forall t', loop_body t <> ReturnUnbounded t'.
Proof.
  intros Hcont t' Hbody. unfold loop_body in Hbody.
  destruct (_find_pivot t) as [[r|] second] eqn:Hfind.
  - destruct (_pivot t); discriminate.
  - apply find_pivot_optimal in Hfind. destruct Hfind as [Hany _].
    unfold _continue in Hcont. congruence.
Qed.

Lemma while_loop_never_returns (max_iters : nat) :
  forall budget iteration t t',
    while_loop max_iters budget iteration t <> Returned t'.
Proof.
  induction budget as [|budget IH]; intros iteration t t'; simpl.
  - destruct (_ && _); discriminate.
  - destruct (_continue t) eqn:Hcont; simpl; [|discriminate].
    destruct (Nat.ltb iteration max_iters); [|discriminate].
    destruct (loop_body t) as [t1|t1|e] eqn:Hbody;
      [apply IH | | discriminate].
    exfalso. now apply (loop_body_never_returns t Hcont t1).
Qed.

Lemma solve_never_returns_unbounded (c : list Q) (A : list (list Q))
    (b : list Q) (max_iters : nat) (t : tableau) :
  snd (solve c A b max_iters) <> Return t None None.
Proof.
  unfold solve.
  destruct (while_loop max_iters max_iters 0 (_build_tableau c A b))
    as [iteration t1 | t1 | e] eqn:Hloop; simpl; try discriminate.
  exfalso. now apply (while_loop_never_returns _ _ _ _ _ Hloop).
Qed.

(** When pivot selection signals unboundedness, on a tableau that the loop
    of [solve] has reached below the cap, [solve] does not return: the
    attempt to pivot raises. *)
Lemma loop_body_unbounded_raises (t : tableau) (first : nat) :
  _find_pivot t = (Some first, None) ->
  exists e, loop_body t = RaiseFrom e.
Proof.
  intro Hfind. unfold loop_body, _pivot. rewrite Hfind.
  destruct (Nat.ltb first (shape0 t)); eexists; reflexivity.
Qed.

Lemma solve_unbounded_raises (c : list Q) (A : list (list Q))
    (b : list Q) (max_iters k : nat) (t : tableau) (first : nat) :
  reached max_iters (_build_tableau c A b) k t ->
  (k < max_iters)%nat ->
  _find_pivot t = (Some first, None) ->
  exists e, solve c A b max_iters = ([], Raise e).
Proof.
  intros Hreach Hk Hfind.
  destruct (loop_body_unbounded_raises t first Hfind) as [e Hbody].
  destruct (find_pivot_unbounded t first Hfind) as [Hany _].
  destruct (reached_while_loop _ _ _ _ Hreach) as [_ Hloop].
  exists e. unfold solve. rewrite Hloop.
  replace (max_iters - k)%nat with (S (max_iters - S k)) by lia.
  simpl. unfold _continue. rewrite Hany, Hbody.
  apply Nat.ltb_lt in Hk. now rewrite Hk.
Qed.

(** C1 (fails on the code).  On the unbounded scenario c=[1], A=[[-1]],
    b=[5], pivot selection signals unboundedness by the pair
    [(0, None)], whose first component is the column; [solve] tests the
    first component against [None], goes on to pivot and leaves by the
    exception of the in-place division, printing nothing, instead of
    returning [(tableau, None, None)]. *)
Theorem solve_unbounded_scenario_raises :
  _find_pivot (_build_tableau [1] [[-1]] [5]) = (Some 0%nat, None) /\
  solve [1] [[-1]] [5] 1000 = ([], Raise ValueError).
Proof. split; vm_compute; reflexivity. Qed.

(** * Solution extraction *)

Lemma fold_left_append {A B : Type} (keep : A -> bool) (item : A -> B)
    (l : list A) :
  forall acc,
    fold_left (fun solution j =>
                 if keep j then solution ++ [item j] else solution) l acc
    = acc ++ map item (filter keep l).
Proof.
  induction l as [|j l IH]; intro acc; simpl.
  - now rewrite app_nil_r.
  - rewrite IH. destruct (keep j); [|reflexivity].
    simpl. now rewrite <- app_assoc.
Qed.

(** The loop of [_primal_solution] lists, in increasing order, the columns
    that [_is_pivot_col] accepts, each with the right-hand side of the row
    that [np.argmax] finds in the whole column. *)
Lemma primal_solution_listing (t : tableau) :
  _primal_solution t =
  map (fun j => (j, last (nth (Np.argmax (Np.abs (full_column t j))) t []) 0))
      (filter (fun j => _is_pivot_col (full_column t j))
              (seq 0 (shape1 t - 1))).
Proof.
  unfold _primal_solution.
  exact (fold_left_append
           (fun j => _is_pivot_col (full_column t j))
           (fun j => (j, last (nth (Np.argmax (Np.abs (full_column t j)))
                                   t []) 0))
           (seq 0 (shape1 t - 1)) []).
Qed.

(** A column that [_is_pivot_col] rejects is not listed. *)
Lemma primal_solution_omits (t : tableau) (j : nat) (value : Q) :
  In (j, value) (_primal_solution t) ->
  _is_pivot_col (full_column t j) = true.
Proof.
  rewrite primal_solution_listing, in_map_iff.
  intros [j' [Hpair Hin]]. inversion Hpair; subst j'.
  now apply filter_In in Hin.
Qed.

(** The arrays handed to [np.argmin] and [np.argmax] are not empty. *)
Lemma find_pivot_argmin_nonempty (t : tableau) :
  Np.any Np.gt0 (objective_row t) = true ->
  Np.take (objective_row t) (Np.where_gt0 (objective_row t)) <> [] /\
  (forall pivot_col,
      Np.all Np.is_inf (ratios t pivot_col) = false ->
      ratios t pivot_col <> []).
Proof.
  intro Hany. split.
  - apply any_gt0_true in Hany. destruct Hany as [j Hj].
    apply where_gt0_In in Hj. unfold Np.take. intro E.
    apply map_eq_nil in E. now rewrite E in Hj.
  - intros pivot_col Hall E. rewrite E in Hall. discriminate.
Qed.

Lemma is_pivot_col_argmax_nonempty (col : list Q) :
  _is_pivot_col col = true -> Np.abs (removelast col) <> [].
Proof.
  unfold _is_pivot_col. intros H E. rewrite E in H. discriminate.
Qed.

Lemma primal_solution_argmax_nonempty (t : tableau) (j : nat) :
  _is_pivot_col (full_column t j) = true ->
  Np.abs (full_column t j) <> [].
Proof.
  intros H E. apply (is_pivot_col_argmax_nonempty _ H).
  unfold Np.abs in *. apply map_eq_nil in E. now rewrite E.
Qed.

(** ** The test of a basic column *)

Lemma removelast_map {A B : Type} (f : A -> B) (l : list A) :
  removelast (map f l) = map f (removelast l).
Proof.
  induction l as [|x l IH]; [reflexivity|].
  destruct l as [|y l]; [reflexivity|].
  change (f x :: removelast (map f (y :: l))
          = f x :: map f (removelast (y :: l))).
  now rewrite IH.
Qed.

Lemma count_zero {A : Type} (test : A -> bool) (d : A) (arr : list A) :
  Np.count_nonzero test arr = 0%nat <->
  (forall i, (i < length arr)%nat -> test (nth i arr d) = false).
Proof.
  unfold Np.count_nonzero.
  induction arr as [|x arr IH]; simpl.
  - split; [intros _ i Hi; lia | reflexivity].
  - destruct (test x) eqn:Hx; simpl; split.
    + discriminate.
    + intro H. specialize (H 0%nat). simpl in H.
      rewrite Hx in H. discriminate H. lia.
    + intros H [|i] Hi; [exact Hx | apply IH; [exact H | lia]].
    + intro H. apply IH. intros i Hi. apply (H (S i)). lia.
Qed.

Lemma count_one {A : Type} (test : A -> bool) (d : A) (arr : list A) :
  Np.count_nonzero test arr = 1%nat <->
  (exists i, (i < length arr)%nat /\ test (nth i arr d) = true /\
             forall i', (i' < length arr)%nat -> i' <> i ->
                        test (nth i' arr d) = false).
Proof.
  induction arr as [|x arr IH].
  - split; [discriminate | intros [i [Hi _]]; simpl in Hi; lia].
  - unfold Np.count_nonzero in *. simpl.
    destruct (test x) eqn:Hx; simpl; split.
    + intro H. exists 0%nat. split; [lia|]. split; [exact Hx|].
      intros [|i'] Hi' Hne; [congruence|].
      apply (count_zero test d arr); [|lia].
      unfold Np.count_nonzero. lia.
    + intros [[|i] [Hi [Hpos Huniq]]].
      * f_equal. apply (count_zero test d arr).
        intros i' Hi'. apply (Huniq (S i')); lia.
      * specialize (Huniq 0%nat). simpl in Huniq.
        rewrite Hx in Huniq. discriminate Huniq; lia.
    + intro H. apply IH in H. destruct H as [i [Hi [Hpos Huniq]]].
      exists (S i). split; [lia|]. split; [exact Hpos|].
      intros [|i'] Hi' Hne; [exact Hx | apply Huniq; lia].
    + intros [[|i] [Hi [Hpos Huniq]]]; [simpl in Hpos; congruence|].
      apply IH. exists i. split; [lia|]. split; [exact Hpos|].
      intros i' Hi' Hne. apply (Huniq (S i')); lia.
Qed.

Section BasicColumn.

Variables m n : nat.
Variable t : tableau.
Variable j : nat.
Hypothesis Hshape : shaped m n t.

Lemma constraint_part_column :
  removelast (full_column t j) = constraint_column t j.
Proof. apply removelast_map. Qed.

Lemma abs_constraint_column_nth (i : nat) :
  (i < m)%nat ->
  nth i (Np.abs (constraint_column t j)) 0 = Qabs (entry t i j).
Proof.
  intro Hi. unfold Np.abs, constraint_column, entry.
  assert (Hlen : (i < length (removelast t))%nat)
    by now rewrite (shaped_removelast_length m n t Hshape).
  rewrite (nth_map_in _ _ _ 0) by (rewrite length_map; exact Hlen).
  rewrite (nth_map_in _ _ _ []) by exact Hlen.
  now rewrite nth_removelast by exact Hlen.
Qed.

Lemma abs_full_column_nth (i : nat) :
  (i <= m)%nat -> nth i (Np.abs (full_column t j)) 0 = Qabs (entry t i j).
Proof.
  intro Hi. unfold Np.abs, full_column, entry.
  assert (Hlen : (i < length t)%nat)
    by (rewrite (shaped_length m n t Hshape); lia).
  rewrite (nth_map_in _ _ _ 0) by (rewrite length_map; exact Hlen).
  now rewrite (nth_map_in _ _ _ []) by exact Hlen.
Qed.

Lemma abs_constraint_column_length :
  length (Np.abs (constraint_column t j)) = m.
Proof.
  unfold Np.abs. rewrite length_map.
  apply (constraint_column_length m n t Hshape).
Qed.

(** On the constraint part, [np.argmax] of the absolute values finds the
    row of the one entry above the tolerance. *)
Lemma argmax_constraint_part (i : nat) :
  (i < m)%nat ->
  tol < Qabs (entry t i j) ->
  (forall i', (i' < m)%nat -> i' <> i -> Qabs (entry t i' j) <= tol) ->
  Np.argmax (Np.abs (constraint_column t j)) = i.
Proof.
  intros Hi Habove Hothers.
  assert (Hne : Np.abs (constraint_column t j) <> []).
  { intro E. pose proof abs_constraint_column_length as Hlen.
    rewrite E in Hlen. simpl in Hlen. lia. }
  destruct (argmax_spec _ Hne) as [Hk [Hmax _]].
  set (k := Np.argmax (Np.abs (constraint_column t j))) in *.
  rewrite abs_constraint_column_length in Hk, Hmax.
  destruct (Nat.eq_dec k i) as [E | Hki]; [exact E | exfalso].
  specialize (Hmax i Hi). apply lt_false in Hmax.
  rewrite !abs_constraint_column_nth in Hmax by assumption.
  specialize (Hothers k Hk Hki). lra.
Qed.

(** [_is_pivot_col] decides the test of the specification. *)
Lemma is_pivot_col_basic :
  _is_pivot_col (full_column t j) = true <-> exists i, basic_column m t j i.
Proof.
  unfold _is_pivot_col. rewrite constraint_part_column.
  destruct (Nat.eqb _ 1) eqn:Hcount; simpl.
  - apply Nat.eqb_eq in Hcount. apply (count_one _ 0) in Hcount.
    destruct Hcount as [i [Hi [Habove Hothers]]].
    rewrite abs_constraint_column_length in Hi, Hothers.
    rewrite abs_constraint_column_nth in Habove by exact Hi.
    apply lt_true in Habove.
    assert (Hothers' : forall i', (i' < m)%nat -> i' <> i ->
                                  Qabs (entry t i' j) <= tol).
    { intros i' Hi' Hne. specialize (Hothers i' Hi' Hne).
      rewrite abs_constraint_column_nth in Hothers by exact Hi'.
      now apply lt_false in Hothers. }
    rewrite (argmax_constraint_part i Hi Habove Hothers').
    assert (Hentry : nth i (constraint_column t j) 0 = entry t i j).
    { unfold constraint_column, entry.
      assert (Hlen : (i < length (removelast t))%nat)
        by now rewrite (shaped_removelast_length m n t Hshape).
      rewrite (nth_map_in _ _ _ []) by exact Hlen.
      now rewrite nth_removelast by exact Hlen. }
    rewrite Hentry, lt_true. split.
    + intro Hunit. exists i. repeat split; assumption.
    + intros [i0 [Hi0 [Habove0 [Hothers0 Hunit0]]]].
      destruct (Nat.eq_dec i i0) as [E | Hne]; [now subst i0 | exfalso].
      specialize (Hothers0 i Hi Hne). lra.
  - split; [discriminate|].
    intros [i [Hi [Habove [Hothers Hunit]]]]. exfalso.
    apply Nat.eqb_neq in Hcount. apply Hcount.
    apply (count_one _ 0). exists i.
    rewrite abs_constraint_column_length. split; [exact Hi|].
    rewrite abs_constraint_column_nth by exact Hi.
    split; [now apply lt_true|].
    intros i' Hi' Hne.
    rewrite abs_constraint_column_nth by exact Hi'.
    apply lt_false. now apply Hothers.
Qed.

(** On the whole column, [np.argmax] of the absolute values finds the same
    row as long as the objective entry of the column is not larger in
    absolute value than the unit entry, and the objective row otherwise. *)
Lemma argmax_full_column (i : nat) :
  basic_column m t j i ->
  Np.argmax (Np.abs (full_column t j)) =
  if Np.lt (Qabs (entry t i j)) (Qabs (entry t m j)) then m else i.
Proof.
  intros [Hi [Habove [Hothers _]]].
  assert (Hlen : length (Np.abs (full_column t j)) = S m).
  { unfold Np.abs, full_column.
    rewrite !length_map. apply (shaped_length m n t Hshape). }
  assert (Hne : Np.abs (full_column t j) <> [])
    by (intro E; rewrite E in Hlen; discriminate).
  destruct (argmax_spec _ Hne) as [Hk [Hmax Hfst]].
  set (k := Np.argmax (Np.abs (full_column t j))) in *.
  rewrite Hlen in Hk, Hmax.
  assert (Hmax_i := Hmax i ltac:(lia)).
  assert (Hmax_m := Hmax m ltac:(lia)).
  apply lt_false in Hmax_i, Hmax_m.
  rewrite !abs_full_column_nth in Hmax_i, Hmax_m by lia.
  destruct (Np.lt (Qabs (entry t i j)) (Qabs (entry t m j))) eqn:Hobj.
  - apply lt_true in Hobj.
    destruct (Nat.eq_dec k m) as [E | Hkm]; [exact E | exfalso].
    destruct (Nat.eq_dec k i) as [E | Hki]; [rewrite E in Hmax_m; lra|].
    specialize (Hothers k ltac:(lia) Hki). lra.
  - apply lt_false in Hobj.
    destruct (Nat.eq_dec k i) as [E | Hki]; [exact E | exfalso].
    destruct (Nat.eq_dec k m) as [E | Hkm].
    + specialize (Hfst i ltac:(lia)). apply lt_true in Hfst.
      rewrite !abs_full_column_nth in Hfst by lia.
      rewrite E in Hfst. lra.
    + specialize (Hothers k ltac:(lia) Hki). lra.
Qed.

(** What [_primal_solution] lists for a basic column: the right-hand side
    of the row of the unit entry when the objective entry of the column is
    not larger in absolute value than the unit entry, and the right-hand
    side of the objective row when it is. *)
Lemma primal_solution_basic_column (i : nat) :
  (j < n)%nat ->
  basic_column m t j i ->
  In (j, if Np.lt (Qabs (entry t i j)) (Qabs (entry t m j))
         then entry t m n else entry t i n)
     (_primal_solution t).
Proof.
  intros Hj Hbasic.
  rewrite primal_solution_listing. apply in_map_iff. exists j. split.
  - rewrite (argmax_full_column i Hbasic). f_equal.
    destruct Hbasic as [Hi _].
    destruct (Np.lt _ _); apply (shaped_rhs m n t _ Hshape); lia.
  - apply filter_In. split.
    + rewrite (shaped_shape1 m n t Hshape). apply in_seq. lia.
    + apply is_pivot_col_basic. now exists i.
Qed.

End BasicColumn.

(** C2 (as amended).  On c=[-1], A=[[1]], b=[5], whatever the iteration
    cap, the loop of [solve] stops at once with no pivot applied, the
    objective value returned is 0 and the solution list is [(0, 5)]: the
    single column passes the test of a basic column, its only constraint
    entry being 1, and is listed with the right-hand side 5 of its row. *)
Theorem solve_trivial_scenario (max_iters : nat) :
  let t0 := _build_tableau [-1] [[1]] [5] in
  while_loop max_iters max_iters 0 t0 = Done 0 t0 /\
  snd (solve [-1] [[1]] [5] max_iters)
  = Return t0 (Some [(0%nat, 5)]) (Some 0).
Proof.
  assert (Hloop : while_loop max_iters max_iters 0
                    (_build_tableau [-1] [[1]] [5])
                  = Done 0 (_build_tableau [-1] [[1]] [5]))
    by (destruct max_iters; reflexivity).
  split; [exact Hloop|].
  unfold solve. rewrite Hloop. reflexivity.
Qed.

(** C2 as stated does not hold: the solution list that [solve] returns on
    c=[-1], A=[[1]], b=[5] is not empty. *)
Lemma solve_trivial_scenario_not_empty :
  ~ (exists t,
        while_loop 1000 1000 0 (_build_tableau [-1] [[1]] [5]) = Done 0 t /\
        snd (solve [-1] [[1]] [5] 1000) = Return t (Some []) (Some 0)).
Proof.
  intros [t [_ H]]. vm_compute in H. discriminate.
Qed.

(** C9 (fails on the code).  On c=[-3], A=[[1]], b=[5] the final tableau is
    the initial one, [[1, 5], [-3, 0]].  Column 0 passes the test of a
    basic column, its unit entry is in constraint row 0, and the right-hand
    side of that row is 5; [solve] lists variable 0 with the value 0, the
    right-hand side of the objective row, where [np.argmax] on the whole
    column finds the entry -3. *)
Theorem primal_solution_reads_objective_row :
  let t := _build_tableau [-3] [[1]] [5] in
  solve [-3] [[1]] [5] 1000 = ([], Return t (Some [(0%nat, 0)]) (Some 0)) /\
  _is_pivot_col (full_column t 0) = true /\
  entry t 0 0 = 1 /\
  entry t 0 1 = 5 /\
  Np.argmax (Np.abs (full_column t 0)) = 1%nat.
Proof. repeat split; vm_compute; reflexivity. Qed.

(** * The theorems at work on the example of the docstring

    The first pivot on [example_tableau] is at row 3, column 1: 250 is the
    smallest positive objective entry and 500 / 250 the smallest ratio. *)

Lemma example_shaped : shaped 4 3 example_tableau.
Proof. split; [reflexivity | repeat constructor]. Defined.

Lemma example_input_shaped :
  input_shaped 4 3 example_c example_A example_b.
Proof.
  unfold input_shaped.
  repeat split; try reflexivity; try lia; repeat constructor.
Defined.

Lemma example_b_nonneg : Forall (fun x => 0 <= x) example_b.
Proof. repeat constructor; discriminate. Defined.

Lemma example_first_step :
  pivot_step example_tableau (pivot_at 3 1 example_tableau).
Proof. split; vm_compute; reflexivity. Defined.

Lemma find_pivot_entering_column_witness :
  exists pivot_col,
    (_find_pivot example_tableau = (Some pivot_col, None) \/
     exists pivot_row,
       _find_pivot example_tableau = (Some pivot_row, Some pivot_col)) /\
    (pivot_col < 3)%nat /\
    0 < entry example_tableau 4 pivot_col /\
    (forall j, (j < 3)%nat -> 0 < entry example_tableau 4 j ->
               entry example_tableau 4 pivot_col
               <= entry example_tableau 4 j) /\
    (forall j, (j < pivot_col)%nat -> 0 < entry example_tableau 4 j ->
               entry example_tableau 4 pivot_col
               < entry example_tableau 4 j).
Proof.
  apply (find_pivot_entering_column 4 3 example_tableau).
  - exact example_shaped.
  - exists 0%nat. split; [lia | reflexivity].
Defined.

Lemma find_pivot_leaving_row_witness :
  exists pivot_row,
    _find_pivot example_tableau = (Some pivot_row, Some 1%nat) /\
    (pivot_row < 4)%nat /\
    0 < entry example_tableau pivot_row 1 /\
    (forall i, (i < 4)%nat -> 0 < entry example_tableau i 1 ->
       entry example_tableau pivot_row 3 / entry example_tableau pivot_row 1
       <= entry example_tableau i 3 / entry example_tableau i 1) /\
    (forall i, (i < pivot_row)%nat -> 0 < entry example_tableau i 1 ->
       entry example_tableau pivot_row 3 / entry example_tableau pivot_row 1
       < entry example_tableau i 3 / entry example_tableau i 1).
Proof.
  apply (find_pivot_leaving_row 4 3 example_tableau 1).
  - exact example_shaped.
  - exists 0%nat. split; [lia | reflexivity].
  - vm_compute. reflexivity.
  - exists 0%nat. split; [lia | reflexivity].
Defined.

Lemma pivot_at_gauss_jordan_witness :
  let t' := pivot_at 3 1 example_tableau in
  shaped 4 3 t' /\
  (forall j, (j <= 3)%nat ->
     entry t' 3 j == entry example_tableau 3 j / entry example_tableau 3 1) /\
  entry t' 3 1 == 1 /\
  (forall i, (i <= 4)%nat -> i <> 3%nat ->
     (forall j, (j <= 3)%nat ->
        entry t' i j
        == entry example_tableau i j - entry example_tableau i 1 * entry t' 3 j) /\
     entry t' i 1 == 0).
Proof.
  apply (pivot_at_gauss_jordan 4 3 example_tableau 3 1).
  - exact example_shaped.
  - lia.
  - lia.
  - intro H. vm_compute in H. discriminate H.
Defined.


Lemma solve_objective_non_decreasing_witness :
  _objective_value example_tableau
  <= _objective_value (pivot_at 3 1 example_tableau).
Proof.
  apply (solve_objective_non_decreasing 4 3 example_c example_A example_b
           1000 0 example_tableau (pivot_at 3 1 example_tableau)).
  - exact example_input_shaped.
  - exact example_b_nonneg.
  - apply reached_start.
  - lia.
  - exact example_first_step.
Defined.

Lemma solve_optimal_objective_row_witness :
  solve [1] [[1]] [5] 1000
  = ([], Return [[1; 5]; [0; -5]] (Some [(0%nat, 5)]) (Some 5)) /\
  forall j, (j < 1)%nat -> entry [[1; 5]; [0; -5]] 1 j <= 0.
Proof.
  split; [vm_compute; reflexivity|].
  apply (solve_optimal_objective_row 1 1 [1] [[1]] [5] 1000
           [[1; 5]; [0; -5]] [(0%nat, 5)] 5).
  - unfold input_shaped.
    repeat split; try reflexivity; try lia; repeat constructor.
  - vm_compute. reflexivity.
Defined.

Lemma find_pivot_entry_positive_witness :
  0 < entry example_tableau 3 1 /\
  ~ entry example_tableau 3 1 == 0 /\
  (forall t', _pivot example_tableau = inr t' ->
              t' = pivot_at 3 1 example_tableau).
Proof.
  apply (find_pivot_entry_positive example_tableau 3 1).
  vm_compute. reflexivity.
Defined.

(** * Further properties of the code

    The rest of the file covers what the methods do beyond the properties
    above: the layout of the tableau, the three answers of [_find_pivot],
    the errors of [_pivot], what a pivot keeps, what [solve] returns and how
    two calls of [solve] on one object compose. *)

(** ** The layout of the tableau *)

(** X1.  [_build_tableau] lays the input out as the specification of the
    tableau says: for [A] of m rows and n columns, [b] of m entries and [c]
    of n entries the tableau has m+1 rows of n+1 entries, [A] in the upper
    left block, [b] in the last column, [c] in the last row and 0 in the
    lower right corner. *)
Theorem build_tableau_layout (m n : nat) (c : list Q) (A : list (list Q))
    (b : list Q) :
  input_shaped m n c A b ->
  let t := _build_tableau c A b in
  shaped m n t /\
  (forall i j, (i < m)%nat -> (j < n)%nat -> entry t i j = entry A i j) /\
  (forall i, (i < m)%nat -> entry t i n = nth i b 0) /\
  (forall j, (j < n)%nat -> entry t m j = nth j c 0) /\
  entry t m n = 0.
Proof.
  intros Hinput t. subst t.
  split; [now apply build_tableau_shaped|].
  split; [|split; [intros i Hi; now apply (build_tableau_rhs m n)|]].
  - destruct Hinput as [Hc [HA [Hrows Hb]]]. intros i j Hi Hj.
    unfold entry, _build_tableau.
    assert (Hlen : length (combine A b) = m)
      by (rewrite length_combine, HA, Hb; apply Nat.min_id).
    rewrite app_nth1 by (rewrite length_map, Hlen; exact Hi).
    rewrite (nth_map_in _ _ _ ([], 0)) by (rewrite Hlen; exact Hi).
    rewrite combine_nth by congruence. simpl.
    apply app_nth1.
    rewrite Forall_forall in Hrows. rewrite (Hrows (nth i A [])); [exact Hj|].
    apply nth_In. lia.
  - destruct Hinput as [Hc [HA [Hrows Hb]]].
    assert (Hobj : nth m (_build_tableau c A b) [] = c ++ [0]).
    { unfold _build_tableau.
      rewrite app_nth2
        by (rewrite length_map, length_combine, HA, Hb, Nat.min_id; lia).
      rewrite length_map, length_combine, HA, Hb, Nat.min_id, Nat.sub_diag.
      reflexivity. }
    unfold entry. rewrite Hobj. split.
    + intros j Hj. apply app_nth1. lia.
    + rewrite app_nth2 by lia. rewrite Hc, Nat.sub_diag. reflexivity.
Qed.

Lemma build_tableau_layout_witness :
  let t := example_tableau in
  shaped 4 3 t /\
  (forall i j, (i < 4)%nat -> (j < 3)%nat ->
               entry t i j = entry example_A i j) /\
  (forall i, (i < 4)%nat -> entry t i 3 = nth i example_b 0) /\
  (forall j, (j < 3)%nat -> entry t 4 j = nth j example_c 0) /\
  entry t 4 3 = 0.
Proof.
  apply (build_tableau_layout 4 3 example_c example_A example_b).
  exact example_input_shaped.
Defined.

(** ** The answers of pivot selection *)

Lemma shaped_any_gt0_false (m n : nat) (t : tableau) :
  shaped m n t ->
  (Np.any Np.gt0 (objective_row t) = false <->
   forall j, (j < n)%nat -> entry t m j <= 0).
Proof.
  intro Hshape. split.
  - intros Hany j Hj.
    rewrite <- (objective_row_nth m n t Hshape) by exact Hj.
    apply any_gt0_false; [exact Hany|].
    now rewrite (objective_row_length m n t Hshape).
  - intro Hall.
    destruct (Np.any Np.gt0 (objective_row t)) eqn:Hany; [|reflexivity].
    apply any_gt0_true in Hany. destruct Hany as [j [Hj Hpos]].
    rewrite (objective_row_length m n t Hshape) in Hj.
    rewrite (objective_row_nth m n t Hshape) in Hpos by exact Hj.
    specialize (Hall j Hj). lra.
Qed.

Lemma find_pivot_none_iff (t : tableau) :
  _find_pivot t = (None, None) <->
  Np.any Np.gt0 (objective_row t) = false.
Proof.
  split.
  - intro H. now apply find_pivot_optimal in H.
  - intro H. unfold _find_pivot. now rewrite H.
Qed.

(** X2.  The optimality signal.  On a tableau of shape (m+1, n+1),
    [_find_pivot] answers [(None, None)] exactly when no objective-row
    entry in columns 0..n-1 is strictly positive, which is exactly when
    [_continue] is false: the loop test of [solve] and the selection agree
    on when to stop. *)
Theorem find_pivot_optimal_signal (m n : nat) (t : tableau) :
  shaped m n t ->
  (_find_pivot t = (None, None) <->
   forall j, (j < n)%nat -> entry t m j <= 0) /\
  (_continue t = false <-> _find_pivot t = (None, None)).
Proof.
  intro Hshape. split.
  - rewrite find_pivot_none_iff. now apply shaped_any_gt0_false.
  - unfold _continue. now rewrite find_pivot_none_iff.
Qed.

Lemma find_pivot_optimal_signal_witness :
  (_find_pivot [[1; 5]; [-1; 0]] = (None, None) <->
   forall j, (j < 1)%nat -> entry [[1; 5]; [-1; 0]] 1 j <= 0) /\
  (_continue [[1; 5]; [-1; 0]] = false <->
   _find_pivot [[1; 5]; [-1; 0]] = (None, None)).
Proof.
  apply (find_pivot_optimal_signal 1 1 [[1; 5]; [-1; 0]]).
  split; [reflexivity | repeat constructor].
Defined.

Lemma all_is_inf_true (m n : nat) (t : tableau) (pivot_col : nat) :
  shaped m n t ->
  (Np.all Np.is_inf (ratios t pivot_col) = true <->
   forall i, (i < m)%nat -> entry t i pivot_col <= 0).
Proof.
  intro Hshape. split.
  - intros Hall i Hi. apply gt0_false.
    unfold Np.all in Hall. rewrite forallb_forall in Hall.
    assert (Hin : In (nth i (ratios t pivot_col) Inf) (ratios t pivot_col)).
    { apply nth_In.
      now rewrite ratios_length, (shaped_removelast_length m n t Hshape). }
    apply Hall in Hin.
    rewrite (shaped_ratios_nth m n) in Hin by assumption.
    destruct (Np.gt0 (entry t i pivot_col)); [discriminate | reflexivity].
  - intro Hrows.
    destruct (Np.all Np.is_inf (ratios t pivot_col)) eqn:Hall;
      [reflexivity | exfalso].
    destruct (ratio_test_shaped m n t pivot_col Hshape Hall)
      as [Hr [Hpos _]].
    specialize (Hrows _ Hr). lra.
Qed.

(** X3.  The unboundedness signal, in exact arithmetic (on doubles a
    quotient of the ratio test can overflow to [np.inf], as on
    [Float64.overflow_tableau]).  On a tableau of shape (m+1, n+1),
    [_find_pivot] answers [(k, None)] exactly when some objective-row
    entry is strictly positive, k is the entering column, and no constraint row
    has a strictly positive entry in column k; k is then a variable column
    with a strictly positive objective entry. *)
Theorem find_pivot_unbounded_signal (m n : nat) (t : tableau) (k : nat) :
  shaped m n t ->
  (_find_pivot t = (Some k, None) <->
   (exists j, (j < n)%nat /\ 0 < entry t m j) /\
   k = entering_column (objective_row t) /\
   (forall i, (i < m)%nat -> entry t i k <= 0)) /\
  (_find_pivot t = (Some k, None) -> (k < n)%nat /\ 0 < entry t m k).
Proof.
  intro Hshape.
  assert (Hany_iff : Np.any Np.gt0 (objective_row t) = true <->
                     exists j, (j < n)%nat /\ 0 < entry t m j).
  { rewrite any_gt0_true, (objective_row_length m n t Hshape).
    split; intros [j [Hj Hpos]]; exists j; (split; [exact Hj|]).
    - now rewrite <- (objective_row_nth m n t Hshape).
    - now rewrite (objective_row_nth m n t Hshape). }
  split; [split|].
  - intro Hfind.
    destruct (find_pivot_unbounded t k Hfind) as [Hany [Hk Hall]].
    split; [now apply Hany_iff|]. split; [exact Hk|].
    now apply (all_is_inf_true m n).
  - intros [Hex [Hk Hrows]].
    apply Hany_iff in Hex. apply (all_is_inf_true m n t k Hshape) in Hrows.
    unfold _find_pivot. rewrite Hex. simpl. rewrite <- Hk.
    now rewrite Hrows.
  - intro Hfind.
    destruct (find_pivot_unbounded t k Hfind) as [Hany [Hk _]].
    destruct (entering_column_spec _ Hany) as [Hlt [Hpos _]].
    rewrite <- Hk in Hlt, Hpos.
    rewrite (objective_row_length m n t Hshape) in Hlt.
    rewrite (objective_row_nth m n t Hshape) in Hpos by exact Hlt.
    now split.
Qed.

Lemma find_pivot_unbounded_signal_witness :
  (_find_pivot [[-1; 5]; [1; 0]] = (Some 0%nat, None) <->
   (exists j, (j < 1)%nat /\ 0 < entry [[-1; 5]; [1; 0]] 1 j) /\
   0%nat = entering_column (objective_row [[-1; 5]; [1; 0]]) /\
   (forall i, (i < 1)%nat -> entry [[-1; 5]; [1; 0]] i 0 <= 0)) /\
  (_find_pivot [[-1; 5]; [1; 0]] = (Some 0%nat, None) ->
   (0 < 1)%nat /\ 0 < entry [[-1; 5]; [1; 0]] 1 0).
Proof.
  apply (find_pivot_unbounded_signal 1 1 [[-1; 5]; [1; 0]] 0).
  split; [reflexivity | repeat constructor].
Defined.

(** ** The errors of [_pivot] *)

Lemma find_pivot_pair_in_range (m n : nat) (t : tableau) (r k : nat) :
  shaped m n t ->
  _find_pivot t = (Some r, Some k) ->
  (r < m)%nat /\ (k < n)%nat.
Proof.
  intros Hshape Hfind.
  destruct (find_pivot_pair _ _ _ Hfind) as [Hany [Hk [Hall Hr]]].
  destruct (entering_column_spec _ Hany) as [Hlt _].
  rewrite <- Hk in Hlt. rewrite (objective_row_length m n t Hshape) in Hlt.
  destruct (ratio_test_shaped m n t k Hshape Hall) as [Hrm _].
  rewrite <- Hr in Hrm. now split.
Qed.

Lemma pivot_runs_pivot_at (m n : nat) (t : tableau) (r k : nat) :
  shaped m n t ->
  _find_pivot t = (Some r, Some k) ->
  _pivot t = inr (pivot_at r k t).
Proof.
  intros Hshape Hfind.
  destruct (find_pivot_pair_in_range m n t r k Hshape Hfind) as [Hr Hk].
  unfold _pivot. rewrite Hfind.
  unfold shape0. rewrite (shaped_length m n t Hshape).
  rewrite (shaped_shape1 m n t Hshape).
  assert (H1 : Nat.ltb r (S m) = true) by (apply Nat.ltb_lt; lia).
  assert (H2 : Nat.ltb k (S n) = true) by (apply Nat.ltb_lt; lia).
  now rewrite H1, H2.
Qed.

(** X4.  The pivot that selection returns is inside the tableau: on a
    tableau of shape (m+1, n+1) the row is a constraint row (never the
    objective row), the column is a variable column (never the right-hand
    side), so [_pivot] indexes inside the matrix, raises nothing and returns
    a tableau of the same shape. *)
Theorem pivot_selection_in_range (m n : nat) (t : tableau) (r k : nat) :
  shaped m n t ->
  _find_pivot t = (Some r, Some k) ->
  (r < m)%nat /\ (k < n)%nat /\
  _pivot t = inr (pivot_at r k t) /\
  shaped m n (pivot_at r k t).
Proof.
  intros Hshape Hfind.
  destruct (find_pivot_pair_in_range m n t r k Hshape Hfind) as [Hr Hk].
  split; [exact Hr|]. split; [exact Hk|].
  split; [now apply (pivot_runs_pivot_at m n)|].
  apply pivot_at_shaped; [exact Hshape | lia].
Qed.

Lemma pivot_selection_in_range_witness :
  (3 < 4)%nat /\ (1 < 3)%nat /\
  _pivot example_tableau = inr (pivot_at 3 1 example_tableau) /\
  shaped 4 3 (pivot_at 3 1 example_tableau).
Proof.
  apply (pivot_selection_in_range 4 3 example_tableau 3 1).
  - exact example_shaped.
  - vm_compute. reflexivity.
Defined.

(** X5.  [_pivot] returns a tableau exactly when [_find_pivot] returns a
    row and a column.  Called on a tableau on which selection signals
    optimality or unboundedness, it raises: the [None] it unpacks becomes an
    index of the in-place division. *)
Theorem pivot_returns_iff_pair (m n : nat) (t : tableau) :
  shaped m n t ->
  ((exists t', _pivot t = inr t') <->
   (exists r k, _find_pivot t = (Some r, Some k))) /\
  ((exists e, _pivot t = inl e) <->
   (_continue t = false \/ exists k, _find_pivot t = (Some k, None))).
Proof.
  intro Hshape. split; split.
  - intros [t' Hp]. unfold _pivot in Hp.
    destruct (_find_pivot t) as [[r|] [k|]]; try discriminate.
    + now exists r, k.
    + destruct (Nat.ltb _ _); discriminate.
  - intros [r [k Hfind]]. exists (pivot_at r k t).
    now apply (pivot_runs_pivot_at m n).
  - intros [e Hp].
    destruct (_find_pivot t) as [[r|] [k|]] eqn:Hfind.
    + rewrite (pivot_runs_pivot_at m n t r k Hshape Hfind) in Hp.
      discriminate.
    + right. now exists r.
    + apply find_pivot_optimal in Hfind. destruct Hfind; discriminate.
    + left. apply find_pivot_optimal in Hfind. now destruct Hfind.
  - intros [Hcont | [k Hfind]].
    + unfold _continue in Hcont. apply find_pivot_none_iff in Hcont.
      unfold _pivot. rewrite Hcont. now exists ValueError.
    + unfold _pivot. rewrite Hfind.
      destruct (Nat.ltb _ _); eexists; reflexivity.
Qed.

Lemma pivot_returns_iff_pair_witness :
  ((exists t', _pivot [[-1; 5]; [1; 0]] = inr t') <->
   (exists r k, _find_pivot [[-1; 5]; [1; 0]] = (Some r, Some k))) /\
  ((exists e, _pivot [[-1; 5]; [1; 0]] = inl e) <->
   (_continue [[-1; 5]; [1; 0]] = false \/
    exists k, _find_pivot [[-1; 5]; [1; 0]] = (Some k, None))).
Proof.
  apply (pivot_returns_iff_pair 1 1 [[-1; 5]; [1; 0]]).
  split; [reflexivity | repeat constructor].
Defined.

(** ** What a pivot changes and what it keeps *)

Lemma shaped_pivot_entries (m n : nat) (t : tableau) (r k : nat) :
  shaped m n t ->
  _find_pivot t = (Some r, Some k) ->
  (r < m)%nat /\ (k < n)%nat /\ 0 < entry t m k /\ 0 < entry t r k.
Proof.
  intros Hshape Hfind.
  destruct (find_pivot_pair_in_range m n t r k Hshape Hfind) as [Hr Hk].
  destruct (find_pivot_pair _ _ _ Hfind) as [Hany [Hkc [Hall Hrow]]].
  destruct (entering_column_spec _ Hany) as [_ [Hpos _]].
  rewrite <- Hkc in Hpos.
  rewrite (objective_row_nth m n t Hshape) in Hpos by exact Hk.
  destruct (ratio_test_shaped m n t k Hshape Hall) as [_ [Hrk _]].
  rewrite <- Hrow in Hrk. repeat split; assumption.
Qed.

(** X6.  The objective value after a pivot.  On a tableau of shape
    (m+1, n+1) the pivot at the selected (r, k) raises the objective value
    by exactly the objective entry of column k times the winning ratio
    RHS(r) / entry(r, k); both factors of the ratio being what they are,
    the objective value strictly increases when the right-hand side of the
    pivot row is strictly positive and stays the same when it is zero (a
    degenerate pivot). *)
Theorem pivot_objective_increment (m n : nat) (t : tableau) (r k : nat) :
  shaped m n t ->
  _find_pivot t = (Some r, Some k) ->
  let t' := pivot_at r k t in
  _objective_value t'
  == _objective_value t + entry t m k * (entry t r n / entry t r k) /\
  (0 < entry t r n -> _objective_value t < _objective_value t') /\
  (entry t r n == 0 -> _objective_value t' == _objective_value t).
Proof.
  intros Hshape Hfind t'. subst t'.
  destruct (shaped_pivot_entries m n t r k Hshape Hfind)
    as [Hr [Hk [Hobj Hrk]]].
  assert (Hshape' : shaped m n (pivot_at r k t))
    by (apply pivot_at_shaped; [exact Hshape | lia]).
  rewrite (shaped_objective_value m n t Hshape).
  rewrite (shaped_objective_value m n _ Hshape').
  rewrite (pivot_at_entry m n) by (assumption || lia).
  assert (Hmr : Nat.eqb m r = false) by (apply Nat.eqb_neq; lia).
  rewrite Hmr.
  split; [ring|]. split.
  - intro Hpos.
    assert (Hq : 0 < entry t r n / entry t r k).
    { apply Qlt_shift_div_l; [exact Hrk|]. now rewrite Qmult_0_l. }
    set (q := entry t r n / entry t r k) in *. nra.
  - intro Hz. unfold Qdiv. rewrite Hz. ring.
Qed.

Lemma pivot_objective_increment_witness :
  let t' := pivot_at 3 1 example_tableau in
  _objective_value t'
  == _objective_value example_tableau
     + entry example_tableau 4 1
       * (entry example_tableau 3 3 / entry example_tableau 3 1) /\
  (0 < entry example_tableau 3 3 ->
   _objective_value example_tableau < _objective_value t') /\
  (entry example_tableau 3 3 == 0 ->
   _objective_value t' == _objective_value example_tableau).
Proof.
  apply (pivot_objective_increment 4 3 example_tableau 3 1).
  - exact example_shaped.
  - vm_compute. reflexivity.
Defined.

(** X7.  After a pivot the entering column is a basic column.  On a
    tableau of shape (m+1, n+1), in the tableau after the pivot at the
    selected (r, k) column k holds 1 in row r and 0 in every other row, the
    objective row included; [_is_pivot_col] accepts it and
    [_primal_solution] lists variable k with the winning ratio
    RHS(r) / entry(r, k) of the tableau before the pivot. *)
Theorem pivot_enters_basis (m n : nat) (t : tableau) (r k : nat) :
  shaped m n t ->
  _find_pivot t = (Some r, Some k) ->
  let t' := pivot_at r k t in
  entry t' r k == 1 /\
  (forall i, (i <= m)%nat -> i <> r -> entry t' i k == 0) /\
  _is_pivot_col (full_column t' k) = true /\
  In (k, entry t r n / entry t r k) (_primal_solution t').
Proof.
  intros Hshape Hfind t'.
  destruct (shaped_pivot_entries m n t r k Hshape Hfind)
    as [Hr [Hk [_ Hrk]]].
  assert (Hnz : ~ entry t r k == 0)
    by (intro E; rewrite E in Hrk; now apply Qlt_irrefl in Hrk).
  assert (Hshape' : shaped m n t')
    by (apply pivot_at_shaped; [exact Hshape | lia]).
  assert (Hone : entry t' r k == 1).
  { unfold t'. rewrite (pivot_at_entry m n) by (assumption || lia).
    rewrite Nat.eqb_refl. now field. }
  assert (Hzero : forall i, (i <= m)%nat -> i <> r -> entry t' i k == 0).
  { intros i Hi Hir. unfold t'.
    rewrite (pivot_at_entry m n) by (assumption || lia).
    apply Nat.eqb_neq in Hir. rewrite Hir. now field. }
  assert (Hbasic : basic_column m t' k r).
  { split; [exact Hr|]. split; [|split].
    - rewrite Hone. reflexivity.
    - intros i Hi Hir. rewrite (Hzero i) by (lia || assumption).
      discriminate.
    - rewrite Hone. reflexivity. }
  split; [exact Hone|]. split; [exact Hzero|]. split.
  - apply (is_pivot_col_basic m n t' k Hshape'). now exists r.
  - pose proof (primal_solution_basic_column m n t' k Hshape' r Hk Hbasic)
      as Hin.
    assert (Hcmp : Np.lt (Qabs (entry t' r k)) (Qabs (entry t' m k)) = false).
    { apply lt_false. rewrite Hone, (Hzero m) by lia. discriminate. }
    rewrite Hcmp in Hin.
    replace (entry t' r n) with (entry t r n / entry t r k) in Hin;
      [exact Hin|].
    unfold t'. rewrite (pivot_at_entry m n) by (assumption || lia).
    now rewrite Nat.eqb_refl.
Qed.

Lemma pivot_enters_basis_witness :
  let t' := pivot_at 3 1 example_tableau in
  entry t' 3 1 == 1 /\
  (forall i, (i <= 4)%nat -> i <> 3%nat -> entry t' i 1 == 0) /\
  _is_pivot_col (full_column t' 1) = true /\
  In (1%nat, entry example_tableau 3 3 / entry example_tableau 3 1)
     (_primal_solution t').
Proof.
  apply (pivot_enters_basis 4 3 example_tableau 3 1).
  - exact example_shaped.
  - vm_compute. reflexivity.
Defined.

(** X8.  A pivot keeps every column whose entry in the pivot row is zero:
    for a position (r, k) of a tableau of shape (m+1, n+1) whose entry is
    not zero, if entry (r, j) is zero then column j is the same before and
    after the pivot at (r, k).  The unit columns of the other rows are
    such columns.  In exact arithmetic. *)
Theorem pivot_keeps_column (m n : nat) (t : tableau) (r k j : nat) :
  shaped m n t -> (r <= m)%nat -> (k <= n)%nat -> (j <= n)%nat ->
  ~ entry t r k == 0 ->
  entry t r j == 0 ->
  forall i, (i <= m)%nat -> entry (pivot_at r k t) i j == entry t i j.
Proof.
  intros Hshape Hr Hk Hj _ Hz i Hi.
  rewrite (pivot_at_entry m n) by assumption.
  destruct (Nat.eqb i r) eqn:E.
  - apply Nat.eqb_eq in E. subst i. unfold Qdiv. rewrite Hz. ring.
  - unfold Qdiv. rewrite Hz. ring.
Qed.

Lemma pivot_keeps_column_witness :
  ~ entry example_tableau 3 1 == 0 /\
  entry example_tableau 3 0 == 0 /\
  forall i, (i <= 4)%nat ->
    entry (pivot_at 3 1 example_tableau) i 0 == entry example_tableau i 0.
Proof.
  assert (Hnz : ~ entry example_tableau 3 1 == 0)
    by (intro H; vm_compute in H; discriminate H).
  split; [exact Hnz|]. split; [reflexivity|].
  apply (pivot_keeps_column 4 3 example_tableau 3 1 0).
  - exact example_shaped.
  - lia.
  - lia.
  - lia.
  - exact Hnz.
  - reflexivity.
Defined.

(** ** The equations of the rows *)

Lemma divide_row_nth (t : tableau) (r k i : nat) :
  (i < length t)%nat ->
  nth i (divide_row r k t) [] =
  if Nat.eqb i r then map (fun x => x / entry t r k) (nth i t [])
  else nth i t [].
Proof.
  intro Hi. unfold divide_row. now rewrite (imap_nth _ _ []) by exact Hi.
Qed.

Lemma eliminate_nth (t : tableau) (r k i : nat) :
  (i < length t)%nat ->
  nth i (eliminate r k t) [] =
  if Nat.eqb i r then nth i t []
  else map (fun xy => fst xy - nth k (nth i t []) 0 * snd xy)
           (combine (nth i t []) (nth r t [])).
Proof.
  intro Hi. unfold eliminate. now rewrite (imap_nth _ _ []) by exact Hi.
Qed.

(** The rows of the tableau after a pivot. *)
Lemma pivot_at_row (t : tableau) (r k i : nat) :
  (r < length t)%nat -> (i < length t)%nat ->
  nth i (pivot_at r k t) [] =
  if Nat.eqb i r then map (fun x => x / entry t r k) (nth r t [])
  else map (fun xy => fst xy - nth k (nth i t []) 0 * snd xy)
           (combine (nth i t [])
                    (map (fun x => x / entry t r k) (nth r t []))).
Proof.
  intros Hr Hi. unfold pivot_at.
  assert (Hlen : length (divide_row r k t) = length t)
    by (unfold divide_row; apply imap_length).
  rewrite eliminate_nth by (rewrite Hlen; exact Hi).
  rewrite !divide_row_nth by assumption.
  rewrite Nat.eqb_refl.
  destruct (Nat.eqb i r) eqn:E; [|reflexivity].
  apply Nat.eqb_eq in E. now subst i.
Qed.

Lemma dot_divided (p : Q) (u : list Q) :
  forall y, dot (map (fun x => x / p) u) y == dot u y / p.
Proof.
  induction u as [|x u IH]; intros [|y0 y]; simpl;
    try (unfold Qdiv; ring).
  rewrite IH. unfold Qdiv. ring.
Qed.

Lemma dot_eliminated (a : Q) (u : list Q) :
  forall v y,
    length u = length v ->
    dot (map (fun xy => fst xy - a * snd xy) (combine u v)) y
    == dot u y - a * dot v y.
Proof.
  induction u as [|x u IH]; intros [|x' v] [|y0 y] Hlen; simpl in *;
    try discriminate; try ring.
  rewrite IH by congruence. ring.
Qed.

(** The equation of each row after a pivot, in terms of the equations
    before it. *)
Lemma pivot_at_row_dot (m n : nat) (t : tableau) (r k i : nat)
    (y : list Q) :
  shaped m n t -> (r <= m)%nat -> (i <= m)%nat ->
  dot (nth i (pivot_at r k t) []) y ==
  if Nat.eqb i r then dot (nth r t []) y / entry t r k
  else dot (nth i t []) y
       - entry t i k * (dot (nth r t []) y / entry t r k).
Proof.
  intros Hshape Hr Hi.
  pose proof (shaped_length m n t Hshape) as Hlen.
  rewrite pivot_at_row by lia.
  destruct (Nat.eqb i r).
  - apply dot_divided.
  - rewrite dot_eliminated, dot_divided; [reflexivity|].
    rewrite length_map.
    now rewrite !(shaped_row m n t Hshape) by assumption.
Qed.

(** X9.  A pivot keeps the equations of the rows.  A row u of the
    tableau stands for the equation [dot u y == 0] on vectors y of n+1
    numbers (with y = x followed by -1: the row applied to x equals its
    right-hand side).  For every position (r, k) of a tableau of shape
    (m+1, n+1) whose entry is not zero, a vector satisfies the equations
    of all the rows before the pivot at (r, k) exactly when it satisfies
    those of all the rows after it. *)
Theorem pivot_keeps_row_equations (m n : nat) (t : tableau) (r k : nat)
    (y : list Q) :
  shaped m n t -> (r <= m)%nat ->
  ~ entry t r k == 0 ->
  (forall i, (i <= m)%nat -> dot (nth i t []) y == 0) <->
  (forall i, (i <= m)%nat -> dot (nth i (pivot_at r k t) []) y == 0).
Proof.
  intros Hshape Hr Hnz.
  pose proof (fun i Hi => pivot_at_row_dot m n t r k i y Hshape Hr Hi)
    as Hrow.
  split.
  - intros Hold i Hi. rewrite (Hrow i Hi).
    destruct (Nat.eqb i r).
    + rewrite (Hold r Hr). unfold Qdiv. ring.
    + rewrite (Hold r Hr), (Hold i Hi). unfold Qdiv. ring.
  - intros Hnew.
    assert (Hpivot : dot (nth r t []) y == 0).
    { pose proof (Hnew r Hr) as H. rewrite (Hrow r Hr) in H.
      rewrite Nat.eqb_refl in H.
      rewrite <- (Qmult_div_r (dot (nth r t []) y) (entry t r k) Hnz).
      rewrite H. ring. }
    intros i Hi. pose proof (Hnew i Hi) as H. rewrite (Hrow i Hi) in H.
    destruct (Nat.eqb i r) eqn:E.
    + apply Nat.eqb_eq in E. now subst i.
    + rewrite Hpivot in H. rewrite <- H. unfold Qdiv. ring.
Qed.

Lemma pivot_keeps_row_equations_witness :
  let t := [[1; 1; 2]; [1; -1; 0]; [3; 1; 4]] in
  let y := [1; 1; -1] in
  ~ entry t 0 0 == 0 /\
  (forall i, (i <= 2)%nat -> dot (nth i t []) y == 0) /\
  (forall i, (i <= 2)%nat -> dot (nth i (pivot_at 0 0 t) []) y == 0) /\
  ~ (forall i, (i <= 2)%nat -> dot (nth i t []) [1; 0; -1] == 0) /\
  ~ (forall i, (i <= 2)%nat ->
       dot (nth i (pivot_at 0 0 t) []) [1; 0; -1] == 0).
Proof.
  set (t := [[1; 1; 2]; [1; -1; 0]; [3; 1; 4]]).
  assert (Hshape : shaped 2 2 t)
    by (split; [reflexivity | repeat constructor]).
  assert (Hnz : ~ entry t 0 0 == 0)
    by (intro H; vm_compute in H; discriminate H).
  assert (Hold : forall i, (i <= 2)%nat ->
                           dot (nth i t []) [1; 1; -1] == 0).
  { intros [|[|[|i]]] Hi; [reflexivity | reflexivity | reflexivity | lia]. }
  assert (Hbad : ~ (forall i, (i <= 2)%nat ->
                              dot (nth i t []) [1; 0; -1] == 0)).
  { intro H. specialize (H 0%nat ltac:(lia)).
    vm_compute in H. discriminate H. }
  cbv zeta. split; [exact Hnz|]. split; [exact Hold|]. split; [|split].
  - apply (proj1 (pivot_keeps_row_equations 2 2 t 0 0 [1; 1; -1]
                    Hshape ltac:(lia) Hnz)).
    exact Hold.
  - exact Hbad.
  - intro Hnew. apply Hbad.
    apply (proj2 (pivot_keeps_row_equations 2 2 t 0 0 [1; 0; -1]
                    Hshape ltac:(lia) Hnz)).
    exact Hnew.
Defined.

(** ** What [solve] returns *)

(** The first call of [solve] on a fresh object. *)
Lemma solve_is_solve_on (c : list Q) (A : list (list Q)) (b : list Q)
    (max_iters : nat) :
  solve c A b max_iters = solve_on (_build_tableau c A b) max_iters.
Proof. reflexivity. Qed.



Lemma while_loop_raised (m n max_iters : nat) (t0 : tableau) :
  shaped m n t0 ->
  forall budget iteration t e,
    reached max_iters t0 iteration t ->
    while_loop max_iters budget iteration t = Raised e ->
    exists k t1 first,
      reached max_iters t0 k t1 /\ (k < max_iters)%nat /\
      _find_pivot t1 = (Some first, None).
Proof.
  intro Hshape0.
  induction budget as [|budget IH]; intros iteration t e Hreach Hloop;
    simpl in Hloop.
  - destruct (_ && _); discriminate.
  - destruct (_continue t) eqn:Hcont; simpl in Hloop; [|discriminate].
    destruct (Nat.ltb iteration max_iters) eqn:Hlt; [|discriminate].
    apply Nat.ltb_lt in Hlt.
    destruct (loop_body t) as [t'|t'|e'] eqn:Hbody; [| discriminate |].
    + apply (IH (S iteration) t' e); [|exact Hloop].
      apply (reached_pivot _ _ iteration t); [exact Hreach | exact Hlt|].
      now split.
    + pose proof (reached_shaped m n max_iters t0 Hshape0 _ _ Hreach)
        as Hshape.
      unfold loop_body in Hbody.
      destruct (_find_pivot t) as [[r|] [k|]] eqn:Hfind; try discriminate.
      * rewrite (pivot_runs_pivot_at m n t r k Hshape Hfind) in Hbody.
        discriminate.
      * exists iteration, t, r. now repeat split.
Qed.

(** X11.  When [solve] raises.  On an input of matching shapes, [solve]
    leaves by an exception exactly when pivot selection signals
    unboundedness on a tableau that the loop reaches below the iteration
    cap; no other run of the loop raises. *)
Theorem solve_raises_iff_unbounded (m n : nat) (c : list Q)
    (A : list (list Q)) (b : list Q) (max_iters : nat) :
  input_shaped m n c A b ->
  (exists e, solve c A b max_iters = ([], Raise e)) <->
  (exists k t first,
      reached max_iters (_build_tableau c A b) k t /\
      (k < max_iters)%nat /\
      _find_pivot t = (Some first, None)).
Proof.
  intro Hinput. split.
  - intros [e Hsolve]. unfold solve in Hsolve.
    destruct (while_loop max_iters max_iters 0 (_build_tableau c A b))
      as [iteration t | t | e'] eqn:Hloop; try discriminate.
    apply (while_loop_raised m n max_iters (_build_tableau c A b)
             (build_tableau_shaped m n c A b Hinput)
             max_iters 0%nat _ e' (reached_start _ _) Hloop).
  - intros [k [t [first [Hreach [Hk Hfind]]]]].
    now apply (solve_unbounded_raises c A b max_iters k t first).
Qed.

Lemma solve_raises_iff_unbounded_witness :
  (exists e, solve [1] [[-1]] [5] 1000 = ([], Raise e)) <->
  (exists k t first,
      reached 1000 (_build_tableau [1] [[-1]] [5]) k t /\
      (k < 1000)%nat /\
      _find_pivot t = (Some first, None)).
Proof.
  apply (solve_raises_iff_unbounded 1 1 [1] [[-1]] [5] 1000).
  unfold input_shaped. repeat split; repeat constructor.
Defined.

Lemma build_tableau_corner (m n : nat) (c : list Q) (A : list (list Q))
    (b : list Q) :
  input_shaped m n c A b -> entry (_build_tableau c A b) m n = 0.
Proof.
  intros [Hc [HA [Hrows Hb]]]. unfold entry, _build_tableau.
  rewrite app_nth2
    by (rewrite length_map, length_combine, HA, Hb, Nat.min_id; lia).
  rewrite length_map, length_combine, HA, Hb, Nat.min_id, Nat.sub_diag.
  simpl. rewrite app_nth2 by lia. rewrite Hc, Nat.sub_diag. reflexivity.
Qed.

Lemma reached_objective_nonneg (m n max_iters : nat) (t0 : tableau) :
  shaped m n t0 -> feasible m n t0 ->
  0 <= _objective_value t0 ->
  forall k t, reached max_iters t0 k t -> 0 <= _objective_value t.
Proof.
  intros Hshape Hfeas Hzero k t Hreach.
  induction Hreach as [|k t t' Hreach IH _ Hstep]; [exact Hzero|].
  apply Qle_trans with (_objective_value t); [exact IH|].
  apply (pivot_step_objective m n); [| |exact Hstep].
  - now apply (reached_shaped m n max_iters t0 Hshape k).
  - now apply (reached_feasible m n max_iters t0 Hshape Hfeas k).
Qed.

(** X12.  The result of [solve] on a feasible input.  On an input of
    matching shapes whose [b] has no negative entry, the tableau that
    [solve] returns has the shape of the initial one and no negative
    right-hand side in its constraint rows, and the objective value
    returned is not negative: the initial one is 0 and no pivot lowers
    it. *)
Theorem solve_result_feasible (m n : nat) (c : list Q) (A : list (list Q))
    (b : list Q) (max_iters : nat) (out : list string) (final : tableau)
    (solution : option (list (nat * Q))) (obj_value : Q) :
  input_shaped m n c A b ->
  Forall (fun x => 0 <= x) b ->
  solve c A b max_iters = (out, Return final solution (Some obj_value)) ->
  shaped m n final /\
  (forall i, (i < m)%nat -> 0 <= entry final i n) /\
  0 <= obj_value.
Proof.
  intros Hinput Hb Hsolve. unfold solve in Hsolve.
  destruct (while_loop max_iters max_iters 0 (_build_tableau c A b))
    as [iteration t | t | e] eqn:Hloop; try discriminate.
  destruct (while_loop_done max_iters (_build_tableau c A b)
              max_iters 0%nat _ iteration t
              (reached_start _ _) eq_refl Hloop) as [Hreach _].
  inversion Hsolve; subst. clear Hsolve.
  pose proof (build_tableau_shaped m n c A b Hinput) as Hshape0.
  pose proof (build_tableau_feasible m n c A b Hinput Hb) as Hfeas0.
  split; [now apply (reached_shaped m n max_iters _ Hshape0 iteration)|].
  split; [now apply (reached_feasible m n max_iters _ Hshape0 Hfeas0
                       iteration)|].
  apply (reached_objective_nonneg m n max_iters _ Hshape0 Hfeas0)
    with iteration; [|exact Hreach].
  rewrite (shaped_objective_value m n _ Hshape0).
  rewrite (build_tableau_corner m n c A b Hinput). discriminate.
Qed.

Lemma solve_result_feasible_witness :
  Forall (fun x => 0 <= x) [5] /\
  shaped 1 1 [[1; 5]; [0; -5]] /\
  (forall i, (i < 1)%nat -> 0 <= entry [[1; 5]; [0; -5]] i 1) /\
  0 <= 5.
Proof.
  assert (Hb : Forall (fun x => 0 <= x) [5])
    by (repeat constructor; discriminate).
  split; [exact Hb|].
  apply (solve_result_feasible 1 1 [1] [[1]] [5] 1000 []
           [[1; 5]; [0; -5]] (Some [(0%nat, 5)]) 5).
  - unfold input_shaped. repeat split; repeat constructor.
  - exact Hb.
  - vm_compute. reflexivity.
Defined.

(** ** Calling [solve] again *)







(** ** The solution list *)

(** X15.  [_is_pivot_col] decides the test of a basic column: on column j
    of a tableau of shape (m+1, n+1) it answers [True] exactly when one
    constraint row holds an entry above 1e-10 in absolute value, every
    other constraint row holds an entry of absolute value at most 1e-10,
    and that one entry is within 1e-10 of 1, where 1e-10 is the double
    that the literal denotes ([tol]).  The objective row plays no part. *)
Theorem is_pivot_col_decides_basic (m n : nat) (t : tableau) (j : nat) :
  shaped m n t ->
  (_is_pivot_col (full_column t j) = true <->
   exists i,
     (i < m)%nat /\
     tol < Qabs (entry t i j) /\
     (forall i', (i' < m)%nat -> i' <> i -> Qabs (entry t i' j) <= tol) /\
     Qabs (entry t i j - 1) < tol).
Proof.
  intro Hshape. exact (is_pivot_col_basic m n t j Hshape).
Qed.

Lemma is_pivot_col_decides_basic_witness :
  _is_pivot_col (full_column (pivot_at 3 1 example_tableau) 1) = true <->
  exists i,
    (i < 4)%nat /\
    tol < Qabs (entry (pivot_at 3 1 example_tableau) i 1) /\
    (forall i', (i' < 4)%nat -> i' <> i ->
                Qabs (entry (pivot_at 3 1 example_tableau) i' 1) <= tol) /\
    Qabs (entry (pivot_at 3 1 example_tableau) i 1 - 1) < tol.
Proof.
  apply (is_pivot_col_decides_basic 4 3 (pivot_at 3 1 example_tableau) 1).
  split; [reflexivity | repeat constructor].
Defined.

Lemma primal_solution_indices (t : tableau) :
  map fst (_primal_solution t) =
  filter (fun j => _is_pivot_col (full_column t j)) (seq 0 (shape1 t - 1)).
Proof.
  rewrite primal_solution_listing, map_map. simpl. apply map_id.
Qed.

(** X16.  The value listed for a basic column.  No column index occurs
    twice in the list of [_primal_solution].  For a variable column j of a
    tableau of shape (m+1, n+1) that passes the test with its unit entry in
    constraint row i, the list holds variable j, exactly once, with the
    right-hand side of row i when the objective entry of the column is at
    most the unit entry in absolute value, and with the right-hand side of
    the objective row when it is larger. *)
Theorem primal_solution_value (m n : nat) (t : tableau) (j i : nat) :
  shaped m n t -> (j < n)%nat ->
  basic_column m t j i ->
  NoDup (map fst (_primal_solution t)) /\
  In j (map fst (_primal_solution t)) /\
  (Qabs (entry t m j) <= Qabs (entry t i j) ->
   forall value, In (j, value) (_primal_solution t) <-> value = entry t i n) /\
  (Qabs (entry t i j) < Qabs (entry t m j) ->
   forall value, In (j, value) (_primal_solution t) <-> value = entry t m n).
Proof.
  intros Hshape Hj Hbasic.
  pose proof (primal_solution_basic_column m n t j Hshape i Hj Hbasic)
    as Hin.
  assert (Honly : forall v1 v2,
            In (j, v1) (_primal_solution t) ->
            In (j, v2) (_primal_solution t) -> v1 = v2).
  { intros v1 v2. rewrite primal_solution_listing, !in_map_iff.
    intros [j1 [E1 _]] [j2 [E2 _]].
    inversion E1; inversion E2; subst. reflexivity. }
  split; [|split; [|split]].
  - rewrite primal_solution_indices. apply NoDup_filter, seq_NoDup.
  - apply in_map_iff. eexists. split; [|exact Hin]. reflexivity.
  - intros Hcmp value. apply lt_false in Hcmp. rewrite Hcmp in Hin.
    split; [intro H; now apply (Honly value _ H Hin) | now intros ->].
  - intros Hcmp value. apply lt_true in Hcmp. rewrite Hcmp in Hin.
    split; [intro H; now apply (Honly value _ H Hin) | now intros ->].
Qed.

Lemma primal_solution_value_witness :
  basic_column 1 [[1; 5]; [-3; 0]] 0 0 /\
  NoDup (map fst (_primal_solution [[1; 5]; [-3; 0]])) /\
  In 0%nat (map fst (_primal_solution [[1; 5]; [-3; 0]])) /\
  (Qabs (entry [[1; 5]; [-3; 0]] 1 0) <= Qabs (entry [[1; 5]; [-3; 0]] 0 0) ->
   forall value,
     In (0%nat, value) (_primal_solution [[1; 5]; [-3; 0]]) <->
     value = entry [[1; 5]; [-3; 0]] 0 1) /\
  (Qabs (entry [[1; 5]; [-3; 0]] 0 0) < Qabs (entry [[1; 5]; [-3; 0]] 1 0) ->
   forall value,
     In (0%nat, value) (_primal_solution [[1; 5]; [-3; 0]]) <->
     value = entry [[1; 5]; [-3; 0]] 1 1).
Proof.
  assert (Hbasic : basic_column 1 [[1; 5]; [-3; 0]] 0 0).
  { split; [lia|]. split; [reflexivity|]. split; [|reflexivity].
    intros i' Hi' Hne. lia. }
  split; [exact Hbasic|].
  apply (primal_solution_value 1 1 [[1; 5]; [-3; 0]] 0 0).
  - split; [reflexivity | repeat constructor].
  - lia.
  - exact Hbasic.
Defined.

(** X17.  The shape of the solution list.  On a tableau of shape
    (m+1, n+1), [_primal_solution] lists exactly the variable columns
    0..n-1 that pass [_is_pivot_col], each once, in increasing order of the
    column index; the right-hand-side column is never listed and the list
    has at most n entries. *)
Theorem primal_solution_columns (m n : nat) (t : tableau) :
  shaped m n t ->
  let solution := _primal_solution t in
  (forall j, (exists value, In (j, value) solution) <->
             (j < n)%nat /\ _is_pivot_col (full_column t j) = true) /\
  (forall a b, (a < b)%nat -> (b < length solution)%nat ->
               (fst (nth a solution (0%nat, 0%Q))
                < fst (nth b solution (0%nat, 0%Q)))%nat) /\
  (length solution <= n)%nat.
Proof.
  intros Hshape solution. subst solution.
  rewrite primal_solution_listing, (shaped_shape1 m n t Hshape).
  replace (S n - 1)%nat with n by lia.
  set (value_of := fun j =>
         (j, last (nth (Np.argmax (Np.abs (full_column t j))) t []) 0)).
  set (keep := fun j => _is_pivot_col (full_column t j)).
  assert (Hlen : (length (filter keep (seq 0 n)) <= n)%nat).
  { pose proof (filter_length_le keep (seq 0 n)) as H.
    now rewrite length_seq in H. }
  split; [|split].
  - intro j. split.
    + intros [value Hin]. apply in_map_iff in Hin.
      destruct Hin as [j' [Hpair Hin]]. inversion Hpair; subst j'.
      apply filter_In in Hin. destruct Hin as [Hseq Hkeep].
      apply in_seq in Hseq. split; [lia | exact Hkeep].
    + intros [Hj Hkeep]. exists (snd (value_of j)).
      apply in_map_iff. exists j. split; [reflexivity|].
      apply filter_In. split; [apply in_seq; lia | exact Hkeep].
  - intros a b Hab Hb. rewrite length_map in Hb.
    rewrite !(nth_map_in value_of _ _ 0%nat) by lia. simpl.
    now apply filter_seq_increasing.
  - now rewrite length_map.
Qed.

Lemma primal_solution_columns_witness :
  let solution := _primal_solution (pivot_at 3 1 example_tableau) in
  (forall j, (exists value, In (j, value) solution) <->
             (j < 3)%nat /\
             _is_pivot_col (full_column (pivot_at 3 1 example_tableau) j)
             = true) /\
  (forall a b, (a < b)%nat -> (b < length solution)%nat ->
               (fst (nth a solution (0%nat, 0%Q))
                < fst (nth b solution (0%nat, 0%Q)))%nat) /\
  (length solution <= 3)%nat.
Proof.
  apply (primal_solution_columns 4 3 (pivot_at 3 1 example_tableau)).
  split; [reflexivity | repeat constructor].
Defined.

(** ** The bound that an optimal return proves *)

Lemma dot_snoc (u : list Q) (a z : Q) :
  forall x, length u = length x ->
            dot (u ++ [a]) (x ++ [z]) == dot u x + a * z.
Proof.
  induction u as [|u0 u IH]; intros [|x0 x] Hlen; simpl in *;
    try discriminate; [ring|].
  rewrite IH by congruence. ring.
Qed.

Lemma dot_nonpos (u : list Q) :
  forall x,
    Forall (fun a => a <= 0) u -> Forall (fun v => 0 <= v) x ->
    dot u x <= 0.
Proof.
  induction u as [|u0 u IH]; intros [|x0 x] Hu Hx; simpl;
    try apply Qle_refl.
  inversion Hu; inversion Hx; subst.
  assert (H := IH x ltac:(assumption) ltac:(assumption)). nra.
Qed.

Lemma build_tableau_row (m n : nat) (c : list Q) (A : list (list Q))
    (b : list Q) (i : nat) :
  input_shaped m n c A b -> (i < m)%nat ->
  nth i (_build_tableau c A b) [] = nth i A [] ++ [nth i b 0].
Proof.
  intros [Hc [HA [Hrows Hb]]] Hi. unfold _build_tableau.
  assert (Hlen : length (combine A b) = m)
    by (rewrite length_combine, HA, Hb; apply Nat.min_id).
  rewrite app_nth1 by (rewrite length_map, Hlen; exact Hi).
  rewrite (nth_map_in _ _ _ ([], 0)) by (rewrite Hlen; exact Hi).
  rewrite combine_nth by congruence. reflexivity.
Qed.

Lemma build_tableau_last_row (m n : nat) (c : list Q) (A : list (list Q))
    (b : list Q) :
  input_shaped m n c A b ->
  nth m (_build_tableau c A b) [] = c ++ [0].
Proof.
  intros [Hc [HA [Hrows Hb]]]. unfold _build_tableau.
  rewrite app_nth2
    by (rewrite length_map, length_combine, HA, Hb, Nat.min_id; lia).
  rewrite length_map, length_combine, HA, Hb, Nat.min_id, Nat.sub_diag.
  reflexivity.
Qed.

(** Along the loop of [solve] the constraint rows keep the equations they
    state, and the objective row keeps its value, on every vector that
    satisfies the equations of the constraint rows. *)
Lemma reached_equations (m n max_iters : nat) (t0 : tableau) (y : list Q) :
  shaped m n t0 ->
  (forall i, (i < m)%nat -> dot (nth i t0 []) y == 0) ->
  forall k t,
    reached max_iters t0 k t ->
    (forall i, (i < m)%nat -> dot (nth i t []) y == 0) /\
    dot (nth m t []) y == dot (nth m t0 []) y.
Proof.
  intros Hshape0 Heq0 k t Hreach.
  induction Hreach as [|k t t' Hreach [IHrows IHobj] _ Hstep].
  - split; [exact Heq0 | reflexivity].
  - pose proof (reached_shaped m n max_iters t0 Hshape0 _ _ Hreach)
      as Hshape.
    destruct (pivot_step_selects m n t t' Hshape Hstep)
      as [r [c [Ht' [Hr _]]]].
    subst t'. split.
    + intros i Hi.
      rewrite (pivot_at_row_dot m n t r c i y Hshape) by lia.
      destruct (Nat.eqb i r).
      * rewrite (IHrows r Hr). unfold Qdiv. ring.
      * rewrite (IHrows r Hr), (IHrows i Hi). unfold Qdiv. ring.
    + rewrite (pivot_at_row_dot m n t r c m y Hshape) by lia.
      assert (Hmr : Nat.eqb m r = false) by (apply Nat.eqb_neq; lia).
      rewrite Hmr, (IHrows r Hr), IHobj. unfold Qdiv. ring.
Qed.

(** X18.  An optimal return bounds the objective.  On an input of
    matching shapes, if [solve] returns the objective value v without the
    warning of the iteration cap, then every vector x of n non-negative
    numbers that satisfies the constraint rows of the input as equations,
    [A x = b], has objective [c x <= v].  (The rows are equations to the
    code: it adds no slack column of its own.) *)
Theorem solve_optimal_bound (m n : nat) (c : list Q) (A : list (list Q))
    (b : list Q) (max_iters : nat) (final : tableau)
    (solution : option (list (nat * Q))) (v : Q) (x : list Q) :
  input_shaped m n c A b ->
  solve c A b max_iters = ([], Return final solution (Some v)) ->
  length x = n ->
  Forall (fun xj => 0 <= xj) x ->
  (forall i, (i < m)%nat -> dot (nth i A []) x == nth i b 0) ->
  dot c x <= v.
Proof.
  intros Hinput Hsolve Hlen Hx HAx. unfold solve in Hsolve.
  destruct (while_loop max_iters max_iters 0 (_build_tableau c A b))
    as [iteration t | t | e] eqn:Hloop; try discriminate.
  destruct (Nat.leb max_iters iteration) eqn:Hcap; [discriminate|].
  apply Nat.leb_gt in Hcap.
  injection Hsolve as Ht Hsol Hv. clear Hsol.
  subst t. rewrite <- Hv. clear Hv.
  destruct (while_loop_done max_iters (_build_tableau c A b)
              max_iters 0%nat _ iteration final
              (reached_start _ _) eq_refl Hloop) as [Hreach [_ Hstop]].
  specialize (Hstop Hcap).
  pose proof (build_tableau_shaped m n c A b Hinput) as Hshape0.
  pose proof (reached_shaped m n max_iters _ Hshape0 _ _ Hreach) as Hshape.
  pose proof Hinput as [Hc [HA [Hrows Hb]]].
  assert (Heq0 : forall i, (i < m)%nat ->
            dot (nth i (_build_tableau c A b) []) (x ++ [-1]) == 0).
  { intros i Hi. rewrite (build_tableau_row m n c A b i Hinput Hi).
    rewrite dot_snoc.
    - rewrite (HAx i Hi). ring.
    - rewrite Forall_forall in Hrows. rewrite (Hrows (nth i A [])), Hlen;
        [reflexivity | apply nth_In; lia]. }
  destruct (reached_equations m n max_iters _ (x ++ [-1]) Hshape0 Heq0
              _ _ Hreach) as [_ Hobj].
  rewrite (build_tableau_last_row m n c A b Hinput) in Hobj.
  rewrite dot_snoc in Hobj by congruence.
  assert (Hrow : nth m final [] = objective_row final ++ [entry final m n]).
  { unfold objective_row. rewrite (shaped_last m n final Hshape).
    rewrite <- (shaped_rhs m n final m Hshape) by lia.
    apply app_removelast_last. intro E.
    pose proof (shaped_row m n final Hshape m ltac:(lia)) as Hl.
    rewrite E in Hl. discriminate. }
  rewrite Hrow, dot_snoc in Hobj
    by (rewrite (objective_row_length m n final Hshape); congruence).
  assert (Hneg : dot (objective_row final) x <= 0).
  { apply dot_nonpos; [|exact Hx].
    apply Forall_forall. intros a Hin.
    apply (In_nth _ _ 0) in Hin. destruct Hin as [j [Hj Hnth]].
    rewrite <- Hnth. now apply any_gt0_false. }
  rewrite (shaped_objective_value m n final Hshape).
  set (z := dot (objective_row final) x) in *.
  set (w := entry final m n) in *.
  set (cx := dot c x) in *.
  lra.
Qed.

Lemma solve_optimal_bound_witness :
  (forall i, (i < 1)%nat -> dot (nth i [[1]] []) [5] == nth i [5] 0) /\
  dot [1] [5] <= 5.
Proof.
  assert (HAx : forall i, (i < 1)%nat ->
                          dot (nth i [[1]] []) [5] == nth i [5] 0).
  { intros [|i] Hi; [reflexivity | lia]. }
  split; [exact HAx|].
  apply (solve_optimal_bound 1 1 [1] [[1]] [5] 1000
           [[1; 5]; [0; -5]] (Some [(0%nat, 5)]) 5 [5]).
  - unfold input_shaped. repeat split; repeat constructor.
  - vm_compute. reflexivity.
  - reflexivity.
  - repeat constructor. discriminate.
  - exact HAx.
Defined.

(** ** Pivoting twice *)

(** X19.  Pivoting again at the same position changes nothing: for a
    position (r, k) of a tableau of shape (m+1, n+1) whose entry is not
    zero, the pivot at (r, k) applied to the tableau after the pivot at
    (r, k) gives that tableau back, entry by entry. *)
Theorem pivot_at_twice (m n : nat) (t : tableau) (r k : nat) :
  shaped m n t -> (r <= m)%nat -> (k <= n)%nat ->
  ~ entry t r k == 0 ->
  forall i j, (i <= m)%nat -> (j <= n)%nat ->
    entry (pivot_at r k (pivot_at r k t)) i j == entry (pivot_at r k t) i j.
Proof.
  intros Hshape Hr Hk Hnz i j Hi Hj.
  set (t' := pivot_at r k t).
  assert (Hshape' : shaped m n t') by now apply pivot_at_shaped.
  assert (Hone : entry t' r k == 1).
  { unfold t'. rewrite (pivot_at_entry m n) by assumption.
    rewrite Nat.eqb_refl. now field. }
  rewrite (pivot_at_entry m n t') by assumption.
  destruct (Nat.eqb i r) eqn:E.
  - apply Nat.eqb_eq in E. subst i. rewrite Hone. field.
  - assert (Hzero : entry t' i k == 0).
    { unfold t'. rewrite (pivot_at_entry m n) by assumption.
      rewrite E. now field. }
    rewrite Hzero, Hone. field.
Qed.

Lemma pivot_at_twice_witness :
  ~ entry example_tableau 3 1 == 0 /\
  forall i j, (i <= 4)%nat -> (j <= 3)%nat ->
    entry (pivot_at 3 1 (pivot_at 3 1 example_tableau)) i j
    == entry (pivot_at 3 1 example_tableau) i j.
Proof.
  assert (Hnz : ~ entry example_tableau 3 1 == 0)
    by (intro H; vm_compute in H; discriminate H).
  split; [exact Hnz|].
  apply (pivot_at_twice 4 3 example_tableau 3 1).
  - exact example_shaped.
  - lia.
  - lia.
  - exact Hnz.
Defined.
